(** * The Step lifecycle of stimela/kitchen/step.py

    A shallow embedding of [resolve_dotted_reference] and of the [Step]
    class ([__post_init__], [finalize], [prevalidate], [run]), with the
    properties of its specification stated and proved on the embedding.

    Python dictionaries are modelled as [gmap string _]; iteration
    follows the canonical order of the map.  Objects that are shared and
    mutated (the cargo of a step, the cached cabs) live in a heap and are
    held by reference. *)

From Stdlib Require Import ZArith String Ascii List Bool Lia.
From stdpp Require Import base option list strings gmap fin_maps.

Local Open Scope string_scope.
Local Open Scope list_scope.

(** ** Exceptions *)

(** An exception raised by a collaborator (the validation engine, a cab
    or recipe constructor, a runner).  [step.py] distinguishes them by
    class in its [except] clauses and reads and writes the [logged]
    flag. *)
Inductive exn_class :=
| SubstitutionErrorList (errors : list string)
| ScabhaBaseException
| OmegaConfBaseException
| OtherException.

Record raised := Raised {
  cls : exn_class;
  message : string;
  logged : bool
}.

Definition is_scabha (e : raised) : bool :=
  match cls e with
  | SubstitutionErrorList _ | ScabhaBaseException => true
  | _ => false
  end.

Definition is_omegaconf (e : raised) : bool :=
  match cls e with OmegaConfBaseException => true | _ => false end.

Inductive exn :=
| StepValidationError (msg : string) (nested : option raised)
| NameError (msg : string)
| TypeError (msg : string)
| KeyError (key : string)
| AttributeError (msg : string)
| RuntimeError (msg : string)
| Propagated (e : raised).

(** ** Configuration trees *)

(** A node of a nested configuration: a string, another scalar, or a
    section (a dict-like mapping of names to nodes). *)
#[warnings="-register-all"]
Inductive node :=
| Str (s : string)
| Num (z : Z)
| Dict (entries : gmap string node).

Definition is_empty_string (s : string) : bool :=
  match s with EmptyString => true | _ => false end.

(** [sub in s] for Python strings. *)
Fixpoint substring_of (sub s : string) : bool :=
  String.prefix sub s ||
  match s with
  | EmptyString => false
  | String _ rest => substring_of sub rest
  end.

(** [element in section] *)
Definition contains (section : node) (element : string) : exn + bool :=
  match section with
  | Dict entries => inr (bool_decide (is_Some (entries !! element)))
  | Str s => inr (substring_of element s)
  | Num _ => inl (TypeError "argument of type 'int' is not iterable")
  end.

(** [section[element]] *)
Definition getitem (section : node) (element : string) : exn + node :=
  match section with
  | Dict entries =>
      match entries !! element with
      | Some n => inr n
      | None => inl (KeyError element)
      end
  | Str _ => inl (TypeError "string indices must be integers")
  | Num _ => inl (TypeError "'int' object is not subscriptable")
  end.

(** Truth value of a node, and of an optional one ([None] is false). *)
Definition node_truthy (n : node) : bool :=
  match n with
  | Str s => negb (is_empty_string s)
  | Num z => negb (z =? 0)%Z
  | Dict entries => negb (bool_decide (entries = ∅))
  end.

Definition truthy_opt (current : option node) : bool :=
  match current with
  | None => false
  | Some n => node_truthy n
  end.

(** ** [resolve_dotted_reference] *)

(** [key.split('.')]: always at least one segment. *)
Fixpoint split_dots (key : string) : list string :=
  match key with
  | EmptyString => [""]
  | String c rest =>
      if Ascii.eqb c "." then "" :: split_dots rest
      else match split_dots rest with
           | seg :: segs => String c seg :: segs
           | [] => [String c ""]
           end
  end.

(** The loop over [path[:-1]]. *)
Fixpoint walk (context key : string) (section : node) (elements : list string)
  : exn + node :=
  match elements with
  | [] => inr section
  | element :: rest =>
      if is_empty_string element then
        inl (NameError (context +:+ ": '..' not permitted"))
      else
        match contains section element with
        | inl e => inl e
        | inr true =>
            match getitem section element with
            | inl e => inl e
            | inr section' => walk context key section' rest
            end
        | inr false =>
            inl (NameError (context +:+ ": '" +:+ element +:+ "' in '" +:+ key
                            +:+ "' is not a valid config section"))
        end
  end.

Definition resolve_path (context key : string) (section : node) (path : list string)
  : exn + (node * string) :=
  let varname := List.last path "" in
  match walk context key section (removelast path) with
  | inl e => inl e
  | inr section' => inr (section', varname)
  end.

Definition resolve_dotted_reference
  (key : string) (base : node) (current : option node) (context : string)
  : exn + (node * string) :=
  let path := split_dots key in
  if negb (is_empty_string (hd "" path)) then
    resolve_path context key base path
  else
    match current with
    | Some section =>
        if node_truthy section then
          let path := tl path in
          match path with
          | [] => inl (NameError (context +:+ ": '.' not permitted"))
          | _ => resolve_path context key section path
          end
        else inl (NameError (context +:+ ": leading '.' not permitted here"))
    | None => inl (NameError (context +:+ ": leading '.' not permitted here"))
    end.

(** ** Parameter values *)

(** Values held in parameter dictionaries.  [VUnresolved] stands for an
    instance of [scabha.validate.Unresolved], [VError] for an instance of
    [scabha.exceptions.Error]. *)
Inductive value :=
| VNone
| VBool (b : bool)
| VInt (z : Z)
| VStr (s : string)
| VUnresolved (what : string)
| VError (msg : string).

(** Truth value of a Python object. *)
Definition truthy (v : value) : bool :=
  match v with
  | VNone => false
  | VBool b => b
  | VInt z => negb (z =? 0)%Z
  | VStr s => negb (is_empty_string s)
  | VUnresolved _ => true
  | VError _ => true
  end.

Definition is_error (v : value) : bool :=
  match v with VError _ => true | _ => false end.

Definition is_unresolved (v : value) : bool :=
  match v with VUnresolved _ => true | _ => false end.

Definition is_none (v : value) : bool :=
  match v with VNone => true | _ => false end.

(** [[name for name, value in d.items() if test(value)]] *)
Definition names_where (test : value -> bool) (d : gmap string value) : list string :=
  (filter (fun kv => test kv.2 = true) (map_to_list d)).*1.

(** Modelled from the spec: [scabha.validate.join_quote] is not part of
    the source; the names are quoted and comma-joined. *)
Fixpoint join_quote (names : list string) : string :=
  match names with
  | [] => ""
  | [n] => "'" +:+ n +:+ "'"
  | n :: rest => "'" +:+ n +:+ "', " +:+ join_quote rest
  end.

(** ** Cargo, configuration, steps *)

Definition Backend := string.
Definition Logger := string.

Record Schema := {
  required : bool;
  default : value
}.

Inductive cargo_type := CabType | RecipeType | OtherType.

(** The attributes of a cargo object that [step.py] reads or writes. *)
Record Cargo := {
  ctype : cargo_type;
  cargo_name : string;
  cargo_backend : option Backend;
  inputs : gmap string Schema;
  outputs : gmap string Schema;
  inputs_outputs : gmap string Schema;
  cargo_defaults : gmap string value
}.

Definition set_cargo_name (n : string) (c : Cargo) : Cargo :=
  {| ctype := ctype c; cargo_name := n; cargo_backend := cargo_backend c;
     inputs := inputs c; outputs := outputs c;
     inputs_outputs := inputs_outputs c; cargo_defaults := cargo_defaults c |}.

Definition with_ctype (t : cargo_type) (c : Cargo) : Cargo :=
  {| ctype := t; cargo_name := cargo_name c; cargo_backend := cargo_backend c;
     inputs := inputs c; outputs := outputs c;
     inputs_outputs := inputs_outputs c; cargo_defaults := cargo_defaults c |}.

(** The attributes of the configuration object that [step.py] reads:
    [config.cabs], [config.lib.recipes], [config.opts.backend], and the
    configuration itself as a tree of sections (for dotted lookups and
    for its truth value). *)
Record Config := {
  cabs : gmap string node;
  lib_recipes : gmap string node;
  opts_backend : option Backend;
  tree : node
}.

(** The [recipe] field of a step is untyped: configuration data (a
    string, a section, another scalar) or a reference to an object. *)
Inductive recipe_value :=
| RecipeNode (n : node)
| RecipeObject (ref : nat).

Record Step := {
  cab : option string;
  recipe : option recipe_value;
  params : gmap string value;
  skip : option string;
  tags : list string;
  backend : option Backend;
  name : string;
  fqname : string;
  (* attributes set by __post_init__ and finalize *)
  cargo : option nat;
  config : option Config;
  validated_params : option (gmap string value);
  _skip : option bool;
  defaults : gmap string value
}.

Definition set_fqname (v : string) (s : Step) : Step :=
  {| cab := cab s; recipe := recipe s; params := params s; skip := skip s;
     tags := tags s; backend := backend s; name := name s; fqname := v;
     cargo := cargo s; config := config s;
     validated_params := validated_params s; _skip := _skip s;
     defaults := defaults s |}.

Definition set_recipe (v : option recipe_value) (s : Step) : Step :=
  {| cab := cab s; recipe := v; params := params s; skip := skip s;
     tags := tags s; backend := backend s; name := name s; fqname := fqname s;
     cargo := cargo s; config := config s;
     validated_params := validated_params s; _skip := _skip s;
     defaults := defaults s |}.

Definition set_params (v : gmap string value) (s : Step) : Step :=
  {| cab := cab s; recipe := recipe s; params := v; skip := skip s;
     tags := tags s; backend := backend s; name := name s; fqname := fqname s;
     cargo := cargo s; config := config s;
     validated_params := validated_params s; _skip := _skip s;
     defaults := defaults s |}.

Definition set_tags (v : list string) (s : Step) : Step :=
  {| cab := cab s; recipe := recipe s; params := params s; skip := skip s;
     tags := v; backend := backend s; name := name s; fqname := fqname s;
     cargo := cargo s; config := config s;
     validated_params := validated_params s; _skip := _skip s;
     defaults := defaults s |}.

Definition set_cargo (v : option nat) (s : Step) : Step :=
  {| cab := cab s; recipe := recipe s; params := params s; skip := skip s;
     tags := tags s; backend := backend s; name := name s; fqname := fqname s;
     cargo := v; config := config s;
     validated_params := validated_params s; _skip := _skip s;
     defaults := defaults s |}.

Definition set_config (v : option Config) (s : Step) : Step :=
  {| cab := cab s; recipe := recipe s; params := params s; skip := skip s;
     tags := tags s; backend := backend s; name := name s; fqname := fqname s;
     cargo := cargo s; config := v;
     validated_params := validated_params s; _skip := _skip s;
     defaults := defaults s |}.

Definition set_validated_params (v : option (gmap string value)) (s : Step) : Step :=
  {| cab := cab s; recipe := recipe s; params := params s; skip := skip s;
     tags := tags s; backend := backend s; name := name s; fqname := fqname s;
     cargo := cargo s; config := config s;
     validated_params := v; _skip := _skip s;
     defaults := defaults s |}.

Definition set__skip (v : option bool) (s : Step) : Step :=
  {| cab := cab s; recipe := recipe s; params := params s; skip := skip s;
     tags := tags s; backend := backend s; name := name s; fqname := fqname s;
     cargo := cargo s; config := config s;
     validated_params := validated_params s; _skip := v;
     defaults := defaults s |}.

Definition set_defaults (v : gmap string value) (s : Step) : Step :=
  {| cab := cab s; recipe := recipe s; params := params s; skip := skip s;
     tags := tags s; backend := backend s; name := name s; fqname := fqname s;
     cargo := cargo s; config := config s;
     validated_params := validated_params s; _skip := _skip s;
     defaults := v |}.

(** Truth values of the optional fields. *)
Definition cab_truthy (s : Step) : bool :=
  match cab s with Some c => negb (is_empty_string c) | None => false end.

Definition recipe_truthy (s : Step) : bool :=
  match recipe s with
  | Some (RecipeNode n) => node_truthy n
  | Some (RecipeObject _) => true
  | None => false
  end.

Definition skip_truthy (s : Step) : bool :=
  match skip s with Some e => negb (is_empty_string e) | None => false end.

(** ** [Step.__post_init__] *)

(** The arguments of the dataclass constructor. *)
Record StepArgs := {
  arg_cab : option string;
  arg_recipe : option recipe_value;
  arg_params : gmap string value;
  arg_skip : option string;
  arg_tags : list string;
  arg_backend : option Backend;
  arg_name : string;
  arg_fqname : string
}.

(** The fields as the generated [__init__] stores them, before
    [__post_init__] runs. *)
Definition init_fields (a : StepArgs) : Step :=
  {| cab := arg_cab a; recipe := arg_recipe a; params := arg_params a;
     skip := arg_skip a; tags := arg_tags a; backend := arg_backend a;
     name := arg_name a; fqname := arg_fqname a;
     cargo := None; config := None; validated_params := None;
     _skip := None; defaults := ∅ |}.

Definition skip_true_tokens : list (option string) :=
  [Some "True"; Some "true"; Some "1"].

Definition skip_false_tokens : list (option string) :=
  [Some "False"; Some "false"; Some "0"; Some ""; None].

Definition preset_skip (sk : option string) : option bool :=
  if bool_decide (sk ∈ skip_true_tokens) then Some true
  else if bool_decide (sk ∈ skip_false_tokens) then Some false
  else None.

Definition post_init (s0 : Step) : exn + Step :=
  let s := set_fqname (if is_empty_string (fqname s0) then name s0 else fqname s0) s0 in
  if Bool.eqb (cab_truthy s) (recipe_truthy s) then
    inl (StepValidationError
           "step '{self.name}': step must specify either a cab or a nested recipe, but not both"
           None)
  else
    let s := set_config None (set_cargo None s) in
    let s := set_tags (remove_dups (tags s)) s in
    let s := set_validated_params None s in
    inr (set__skip (preset_skip (skip s)) s).

(** [Step(...)]: the constructor followed by [__post_init__]. *)
Definition new_step (a : StepArgs) : exn + Step := post_init (init_fields a).

(** ** State, events and the lifecycle monad *)

Record SubstitutionNS := {
  variables : gmap string value;
  current : gmap string value
}.

Definition set_current (p : gmap string value) (ns : SubstitutionNS) : SubstitutionNS :=
  {| variables := variables ns; current := p |}.

(** The [subst] argument of [prevalidate]: a namespace, or (as [run]
    passes it) a parameter dictionary. *)
Inductive subst_arg :=
| SubstNS (ns : SubstitutionNS)
| SubstParams (p : gmap string value).

Definition Batch := string.

Inductive level := DEBUG | INFO | WARNING | ERROR.

(** What a call leaves behind outside the step: log records, calls of
    the substitution engine for [skip], calls of the runners, writes to
    [subst.current].  Debug records keep the constant part of their
    text. *)
Inductive event :=
| Log (lvl : level) (msg : string)
| LogSummary (lvl : level) (title : string)
| EvaluateSkip (expr : value)
| RunCab (p : gmap string value) (b : option Backend)
| RunRecipe (p : gmap string value)
| SetCurrent (p : gmap string value)
| MergeCurrent (p : gmap string value).

(** [self], the heap of cargo objects, the class attribute
    [Step._instantiated_cabs], and the events so far. *)
Record State := {
  self : Step;
  heap : list Cargo;
  _instantiated_cabs : gmap string nat;
  trace : list event
}.

Definition M (A : Type) : Type := State -> (exn + A) * State.

Definition ret {A} (a : A) : M A := fun st => (inr a, st).

Definition bind {A B} (m : M A) (f : A -> M B) : M B :=
  fun st =>
    match m st with
    | (inl e, st') => (inl e, st')
    | (inr a, st') => f a st'
    end.

Definition raise {A} (e : exn) : M A := fun st => (inl e, st).

Declare Scope lifecycle_scope.
Delimit Scope lifecycle_scope with lifecycle.
Notation "x <- m ;; k" := (bind m (fun x => k))
  (at level 100, m at next level, right associativity) : lifecycle_scope.
Notation "m ;; k" := (bind m (fun _ => k))
  (at level 100, right associativity) : lifecycle_scope.
Local Open Scope lifecycle_scope.

Definition get_self : M Step := fun st => (inr (self st), st).

Definition get_state : M State := fun st => (inr st, st).

Definition modify_self (f : Step -> Step) : M unit :=
  fun st => (inr tt, {| self := f (self st); heap := heap st;
                        _instantiated_cabs := _instantiated_cabs st;
                        trace := trace st |}).

Definition emit (ev : event) : M unit :=
  fun st => (inr tt, {| self := self st; heap := heap st;
                        _instantiated_cabs := _instantiated_cabs st;
                        trace := trace st ++ [ev] |}).

Fixpoint emit_all (evs : list event) : M unit :=
  match evs with
  | [] => ret tt
  | ev :: rest => emit ev ;; emit_all rest
  end.

(** A new object: the reference is the next free index of the heap. *)
Definition alloc (c : Cargo) : M nat :=
  fun st => (inr (length (heap st)),
             {| self := self st; heap := heap st ++ [c];
                _instantiated_cabs := _instantiated_cabs st;
                trace := trace st |}).

Definition store (ref : nat) (c : Cargo) : M unit :=
  fun st => (inr tt, {| self := self st; heap := <[ref := c]> (heap st);
                        _instantiated_cabs := _instantiated_cabs st;
                        trace := trace st |}).

Definition cache_cab (cab_name : string) (ref : nat) : M unit :=
  fun st => (inr tt, {| self := self st; heap := heap st;
                        _instantiated_cabs := <[cab_name := ref]> (_instantiated_cabs st);
                        trace := trace st |}).

Definition lift {A} (r : raised + A) : M A :=
  match r with
  | inl e => raise (Propagated e)
  | inr a => ret a
  end.

Definition lift_exn {A} (r : exn + A) : M A :=
  match r with
  | inl e => raise e
  | inr a => ret a
  end.

(** [self.cargo], dereferenced; attribute access on [None] fails. *)
Definition get_cargo : M (nat * Cargo) :=
  fun st =>
    match cargo (self st) with
    | Some ref =>
        match heap st !! ref with
        | Some c => (inr (ref, c), st)
        | None => (inl (RuntimeError "invalid object reference"), st)
        end
    | None => (inl (AttributeError "'NoneType' object has no attribute"), st)
    end.

(** ** The collaborators of the step *)

(** Code outside [step.py] that the step calls.  A call either returns
    or raises; a call that updates an object in place returns the
    updated object. *)
Record Collaborators := {
  CONFIG : Config;
  getChild : string -> Logger;
  Cab_init : node -> raised + Cargo;
  Recipe_init : node -> raised + Cargo;
  flatten_param_dict :
    Cargo -> gmap string value -> raised + gmap string value;
  cargo_finalize :
    Cargo -> Config -> Logger -> option string -> string -> nat -> raised + Cargo;
  cargo_prevalidate :
    Cargo -> gmap string value -> option subst_arg -> bool -> raised + gmap string value;
  validate_inputs :
    Cargo -> gmap string value -> value -> option SubstitutionNS -> raised + gmap string value;
  validate_outputs :
    Cargo -> gmap string value -> value -> option SubstitutionNS -> raised + gmap string value;
  evaluate_and_substitute :
    gmap string value -> SubstitutionNS -> gmap string value -> list string ->
    raised + gmap string value;
  run_cab :
    Step -> Cargo -> gmap string value -> option Backend -> option SubstitutionNS ->
    option Batch -> raised + gmap string value;
  recipe_run : Cargo -> gmap string value -> raised + gmap string value
}.

(** ** The properties [finalized], [invalid_params], [unresolved_params] *)

Definition finalized (s : Step) : bool :=
  match cargo s with Some _ => true | None => false end.

(** The two lists read [self.validated_params.items()]: before any
    validation that is [None] and the attribute access fails. *)
Definition invalid_params (s : Step) : exn + list string :=
  match validated_params s with
  | Some vp => inr (names_where is_error vp)
  | None => inl (AttributeError "'NoneType' object has no attribute 'items'")
  end.

Definition unresolved_params (s : Step) : exn + list string :=
  match validated_params s with
  | Some vp => inr (names_where is_unresolved vp)
  | None => inl (AttributeError "'NoneType' object has no attribute 'items'")
  end.

Definition nonempty {A} (l : list A) : bool :=
  match l with [] => false | _ => true end.

(** ** [Step.finalize] *)

(** The dictionary comprehension over [cargo.inputs_outputs]. *)
Definition schema_default (sch : Schema) : option value :=
  if negb (is_none (default sch)) && negb (is_unresolved (default sch))
  then Some (default sch) else None.

Definition build_defaults (c : Cargo) : gmap string value :=
  cargo_defaults c ∪ omap schema_default (inputs_outputs c).

(** The loop that sets the missing parameters from the defaults. *)
Definition merge_defaults (dflt p : gmap string value) : gmap string value :=
  map_fold (fun nm v acc =>
              match acc !! nm with
              | Some _ => acc
              | None => <[nm := v]> acc
              end) p dflt.

(** [repr(type(x))] of what the [recipe] field holds. *)
Definition type_repr (h : list Cargo) (r : option recipe_value) : string :=
  match r with
  | None => "<class 'NoneType'>"
  | Some (RecipeNode (Str _)) => "<class 'str'>"
  | Some (RecipeNode (Num _)) => "<class 'int'>"
  | Some (RecipeNode (Dict _)) => "<class 'omegaconf.dictconfig.DictConfig'>"
  | Some (RecipeObject ref) =>
      match ctype <$> h !! ref with
      | Some CabType => "<class 'stimela.kitchen.cab.Cab'>"
      | Some RecipeType => "<class 'stimela.kitchen.recipe.Recipe'>"
      | _ => "<class 'object'>"
      end
  end.

Definition option_repr (o : option string) : string :=
  match o with Some s => s | None => "None" end.

(** A recipe given by name: looked up in [lib.recipes] when undotted,
    as a dotted reference in the configuration otherwise. *)
Definition lookup_recipe (cfg : Config) (step_name rname : string) : exn + node :=
  if negb (substring_of "." rname) then
    match lib_recipes cfg !! rname with
    | None =>
        inl (StepValidationError
               ("step '" +:+ step_name +:+ "': '" +:+ rname +:+ "' not found in lib.recipes")
               None)
    | Some n => inr n
    end
  else
    match resolve_dotted_reference rname (tree cfg) None ("step '" +:+ step_name +:+ "'") with
    | inl e => inl e
    | inr (section, var) =>
        match contains section var with
        | inl e => inl e
        | inr false =>
            inl (StepValidationError
                   ("step '" +:+ step_name +:+ "': '" +:+ rname +:+ "' not found") None)
        | inr true => getitem section var
        end
    end.

Section Lifecycle.

Variable env : Collaborators.

Definition bind_recipe (cfg : Config) : M unit :=
  s <- get_self ;;
  recipe_name <-
    match recipe s with
    | Some (RecipeNode (Str rname)) =>
        n <- lift_exn (lookup_recipe cfg (name s) rname) ;;
        modify_self (set_recipe (Some (RecipeNode n))) ;;
        ret ("nested recipe '" +:+ rname +:+ "'")
    | _ => ret "nested recipe"
    end ;;
  s <- get_self ;;
  st <- get_state ;;
  match recipe s with
  | Some (RecipeNode (Dict d)) =>
      match Recipe_init env (Dict d) with
      | inl e =>
          if is_omegaconf e then
            raise (StepValidationError
                     ("step '" +:+ name s +:+ "': error in recipe '" +:+ recipe_name)
                     (Some e))
          else raise (Propagated e)
      | inr c =>
          ref <- alloc (with_ctype RecipeType c) ;;
          modify_self (set_recipe (Some (RecipeObject ref))) ;;
          modify_self (set_cargo (Some ref))
      end
  | Some (RecipeObject ref) =>
      match ctype <$> heap st !! ref with
      | Some RecipeType => modify_self (set_cargo (Some ref))
      | _ =>
          raise (StepValidationError
                   ("step '" +:+ name s +:+
                    "': recipe field must be a string or a nested recipe, found "
                    +:+ type_repr (heap st) (recipe s)) None)
      end
  | r =>
      raise (StepValidationError
               ("step '" +:+ name s +:+
                "': recipe field must be a string or a nested recipe, found "
                +:+ type_repr (heap st) r) None)
  end.

Definition cached_cab (st : State) (s : Step) : option nat :=
  match cab s with
  | Some c => _instantiated_cabs st !! c
  | None => None
  end.

Definition bind_cab (cfg : Config) : M unit :=
  s <- get_self ;;
  st <- get_state ;;
  match cached_cab st s with
  | Some cached =>
      (* copy.copy of the cached object *)
      match heap st !! cached with
      | Some c => ref <- alloc c ;; modify_self (set_cargo (Some ref))
      | None => raise (RuntimeError "invalid object reference")
      end
  | None =>
      match cab s with
      | Some c =>
          match cabs cfg !! c with
          | Some definition =>
              match Cab_init env definition with
              | inl e =>
                  raise (StepValidationError
                           ("step '" +:+ name s +:+ "': error in cab '" +:+ c +:+ "'")
                           (Some e))
              | inr obj =>
                  ref <- alloc (with_ctype CabType obj) ;;
                  modify_self (set_cargo (Some ref)) ;;
                  cache_cab c ref
              end
          | None =>
              raise (StepValidationError
                       ("step '" +:+ name s +:+ "': unknown cab " +:+ c) None)
          end
      | None =>
          raise (StepValidationError
                   ("step '" +:+ name s +:+ "': unknown cab None") None)
      end
  end.

Definition effective_config (config_arg : option Config) : Config :=
  match config_arg with
  | Some c => if node_truthy (tree c) then c else CONFIG env
  | None => CONFIG env
  end.

Definition finalize
  (config_arg : option Config) (log : option Logger) (logopts : option string)
  (fqname_arg : option string) (nesting : nat) : M unit :=
  s <- get_self ;;
  if finalized s then ret tt
  else
    match fqname_arg with
    | Some f => modify_self (set_fqname f)
    | None => ret tt
    end ;;
    let cfg := effective_config config_arg in
    modify_self (set_config (Some cfg)) ;;
    s <- get_self ;;
    (if recipe_truthy s then bind_recipe cfg else bind_cab cfg) ;;
    s <- get_self ;;
    rc <- get_cargo ;;
    let c := set_cargo_name (name s) rc.2 in
    store rc.1 c ;;
    (* flatten parameters *)
    p <- lift (flatten_param_dict env c (params s)) ;;
    modify_self (set_params p) ;;
    let log := match log with
               | Some l => l
               | None => getChild env (fqname s)
               end in
    (* finalize the cargo *)
    c <- lift (cargo_finalize env c cfg log logopts (fqname s) nesting) ;;
    store rc.1 c ;;
    (* build dictionary of defaults from cargo *)
    let dflt := build_defaults c in
    modify_self (set_defaults dflt) ;;
    (* set missing parameters from defaults *)
    modify_self (fun s => set_params (merge_defaults dflt (params s)) s).

(** ** [Step.prevalidate] *)

Definition prevalidate (subst : option subst_arg) (root : bool)
  : M (gmap string value) :=
  finalize None None None None 0 ;;
  s <- get_self ;;
  rc <- get_cargo ;;
  p <- lift (cargo_prevalidate env rc.2 (params s) subst root) ;;
  modify_self (set_validated_params (Some p)) ;;
  emit (Log DEBUG (cargo_name rc.2 +:+ ": missing, invalid and unresolved parameters")) ;;
  s <- get_self ;;
  invalid <- lift_exn (invalid_params s) ;;
  if nonempty invalid then
    raise (StepValidationError
             ("step '" +:+ name s +:+ "': " +:+ cargo_name rc.2 +:+
              " has the following invalid parameters: " +:+
              join_quote invalid) None)
  else ret p.

(** ** [Step.run] *)

(** [self.skip] and [self._skip] as Python values. *)
Definition skip_value (s : Step) : value :=
  match skip s with Some e => VStr e | None => VNone end.

Definition preset_value (s : Step) : value :=
  match _skip s with Some b => VBool b | None => VNone end.

(** Evaluation of the skip attribute. *)
Definition evaluate_skip (subst : option SubstitutionNS) : M value :=
  s <- get_self ;;
  match _skip s, subst with
  | None, Some ns =>
      emit (EvaluateSkip (skip_value s)) ;;
      skips <- lift (evaluate_and_substitute env {[ "skip" := skip_value s ]}
                       ns (current ns) [fqname s]) ;;
      match skips !! "skip" with
      | Some v => ret v
      | None => raise (KeyError "skip")
      end
  | _, _ => ret (preset_value s)
  end.

(** The records written for a caught validation exception; the
    exception comes back with its [logged] flag set. *)
Definition log_validation_error (lvl : level) (what : string) (e : raised) : M raised :=
  (if logged e then ret tt
   else
     match cls e with
     | SubstitutionErrorList errors =>
         emit (Log lvl "unresolved {}-substitution(s):") ;;
         emit_all (map (fun err => Log lvl ("  " +:+ err)) errors)
     | _ => emit (Log lvl ("error validating " +:+ what +:+ ": " +:+ message e))
     end) ;;
  ret {| cls := cls e; message := message e; logged := true |}.

Definition select_backend (s : Step) (c : Cargo) : option Backend :=
  match backend s with
  | Some b => Some b
  | None =>
      match cargo_backend c with
      | Some b => Some b
      | None => opts_backend (CONFIG env)
      end
  end.

(** The [update] of [self.validated_params] with the given parameters;
    on [None] the attribute access fails. *)
Definition update_validated (p : gmap string value) : M unit :=
  s <- get_self ;;
  match validated_params s with
  | Some vp => modify_self (set_validated_params (Some (p ∪ vp)))
  | None => raise (AttributeError "'NoneType' object has no attribute 'update'")
  end.

(** [if self.validated_params is None: self.prevalidate(self.params)] *)
Definition ensure_prevalidated : M unit :=
  s <- get_self ;;
  match validated_params s with
  | None => prevalidate (Some (SubstParams (params s))) false ;; ret tt
  | Some _ => ret tt
  end.

(** Lines 232-275 of [run]: input validation, the log of the inputs,
    and the check for invalid or unresolved inputs.  Returns [params],
    [validated] and the namespace with its [current] scope. *)
Definition validate_step_inputs
  (skip_now : value) (subst : option SubstitutionNS) (c : Cargo)
  (params0 : gmap string value)
  : M (gmap string value * bool * option SubstitutionNS) :=
  s <- get_self ;;
  emit (Log DEBUG "validating inputs") ;;
  r <- match validate_inputs env c params0 skip_now subst with
       | inr p => ret (p, true, false)
       | inl e =>
           if is_scabha e then
             let lvl := if truthy skip_now then WARNING else ERROR in
             e' <- log_validation_error lvl "inputs" e ;;
             emit (LogSummary lvl "summary of inputs follows") ;;
             (* raise up, unless step is being skipped *)
             if skip_truthy s then
               emit (Log WARNING "since the step is being skipped, this is not fatal") ;;
               ret (params0, false, true)
             else raise (Propagated e')
           else raise (Propagated e)
       end ;;
  let '(params1, validated, skip_warned) := r in
  update_validated params1 ;;
  (* log inputs *)
  subst1 <- (if validated && negb (truthy skip_now) then
               emit (LogSummary INFO "validated inputs") ;;
               match subst with
               | Some ns => emit (SetCurrent params1) ;; ret (Some (set_current params1 ns))
               | None => ret None
               end
             else ret subst) ;;
  (* bomb out if some inputs failed to validate or substitutions resolve *)
  s <- get_self ;;
  invalid <- lift_exn (invalid_params s) ;;
  unresolved <- lift_exn (unresolved_params s) ;;
  (if nonempty invalid || nonempty unresolved then
     let invalid := invalid ++ unresolved in
     if skip_truthy s then
       emit (Log WARNING ("invalid inputs: " +:+ join_quote invalid)) ;;
       if negb skip_warned then
         emit (Log WARNING "since the step was skipped, this is not fatal")
       else ret tt
     else
       raise (StepValidationError
                ("step '" +:+ name s +:+ "': invalid inputs: " +:+ join_quote invalid)
                None)
   else ret tt) ;;
  ret (params1, validated, subst1).

(** Lines 277-294 of [run]: the runner of the cargo, unless the step
    is skipped. *)
Definition dispatch
  (skip_now : value) (c : Cargo) (params1 : gmap string value)
  (subst subst1 : option SubstitutionNS) (batch : option Batch)
  : M (gmap string value) :=
  s <- get_self ;;
  if negb (truthy skip_now) then
    match ctype c with
    | RecipeType =>
        emit (RunRecipe params1) ;;
        lift (recipe_run env c params1)
    | CabType =>
        let b := select_backend s c in
        emit (RunCab params1 b) ;;
        lift (run_cab env s c params1 b subst1 batch)
    | OtherType =>
        raise (RuntimeError "step '{self.name}': unknown cargo type")
    end
  else
    match _skip s, subst with
    | None, Some _ =>
        emit (Log INFO ("skipping step based on setting of '"
                        +:+ option_repr (skip s) +:+ "'"))
    | _, _ => emit (Log INFO "skipping step based on explicit setting")
    end ;;
    ret params1.

(** Lines 296-332 of [run]: output validation and the check for
    invalid or unresolved outputs. *)
Definition validate_step_outputs
  (skip_now : value) (c : Cargo) (params2 : gmap string value)
  (subst2 : option SubstitutionNS) : M (gmap string value) :=
  s <- get_self ;;
  emit (Log DEBUG "validating outputs") ;;
  r <- match validate_outputs env c params2 skip_now subst2 with
       | inr p => ret (p, true)
       | inl e =>
           if is_scabha e then
             let lvl := if skip_truthy s then WARNING else ERROR in
             e' <- log_validation_error lvl "outputs" e ;;
             (* raise up, unless step is being skipped *)
             if truthy skip_now then
               emit (Log WARNING "since the step was skipped, this is not fatal") ;;
               ret (params2, false)
             else
               emit (LogSummary lvl "failed outputs") ;;
               raise (Propagated e')
           else raise (Propagated e)
       end ;;
  let '(params3, validated) := r in
  (if validated : bool then
     update_validated params3 ;;
     match subst2 with
     | Some _ => emit (MergeCurrent params3)
     | None => ret tt
     end ;;
     emit (LogSummary DEBUG "validated outputs")
   else ret tt) ;;
  (* bomb out if an output was invalid *)
  s <- get_self ;;
  invalid <- lift_exn (invalid_params s) ;;
  unresolved <- lift_exn (unresolved_params s) ;;
  let invalid := filter (fun nm => is_Some (outputs c !! nm))
                   (invalid ++ unresolved) in
  (if nonempty invalid then
     if truthy skip_now then
       emit (Log WARNING ("invalid outputs: " +:+ join_quote invalid)) ;;
       emit (Log WARNING "since the step was skipped, this is not fatal")
     else
       raise (StepValidationError ("invalid outputs: " +:+ join_quote invalid) None)
   else ret tt) ;;
  ret params3.

Definition run
  (subst : option SubstitutionNS) (batch : option Batch) (parent_log : option Logger)
  : M (gmap string value) :=
  ensure_prevalidated ;;
  (* evaluate the skip attribute *)
  skip_now <- evaluate_skip subst ;;
  (* the validated values, overlaid with the values that were supplied *)
  s <- get_self ;;
  vp <- match validated_params s with
        | Some vp => ret vp
        | None => raise (AttributeError "'NoneType' object has no attribute 'copy'")
        end ;;
  let params0 := params s ∪ vp in
  rc <- get_cargo ;;
  r <- validate_step_inputs skip_now subst rc.2 params0 ;;
  let '(params1, validated, subst1) := r in
  params2 <- dispatch skip_now rc.2 params1 subst subst1 batch ;;
  (* subst.current is the dictionary the runner received *)
  let subst2 := if validated && negb (truthy skip_now)
                then set_current params2 <$> subst1 else subst1 in
  validate_step_outputs skip_now rc.2 params2 subst2.

End Lifecycle.

(** * A sample pipeline *)

(** A configuration with one cab, [copy], whose schema requires [src]
    and [dst] and gives [mode] the default [7]; collaborators that build
    cargo from it, with the prevalidation and the input validation
    given by their results. *)

Definition copy_schema : gmap string Schema :=
  {[ "src" := {| required := true; default := VNone |};
     "dst" := {| required := true; default := VNone |};
     "mode" := {| required := false; default := VInt 7 |} ]}.

Definition copy_cargo : Cargo :=
  {| ctype := CabType; cargo_name := ""; cargo_backend := None;
     inputs := copy_schema; outputs := ∅; inputs_outputs := copy_schema;
     cargo_defaults := {[ "verbose" := VBool false ]} |}.

Definition copy_definition : node := Dict {[ "command" := Str "cp" ]}.

Definition sample_config : Config :=
  {| cabs := {[ "copy" := copy_definition ]};
     lib_recipes := ∅;
     opts_backend := Some "docker";
     tree := Dict {[ "cabs" := Dict {[ "copy" := copy_definition ]} ]} |}.

Definition sample_collaborators
  (precheck check_inputs : gmap string value -> raised + gmap string value)
  : Collaborators :=
  {| CONFIG := sample_config;
     getChild := fun child => "stimela." +:+ child;
     Cab_init := fun _ => inr copy_cargo;
     Recipe_init := fun _ => inr (with_ctype RecipeType copy_cargo);
     flatten_param_dict := fun _ p => inr p;
     cargo_finalize := fun c _ _ _ _ _ => inr c;
     cargo_prevalidate := fun _ p _ _ => precheck p;
     validate_inputs := fun _ p _ _ => check_inputs p;
     validate_outputs := fun _ p _ _ => inr p;
     evaluate_and_substitute := fun d _ _ _ => inr ({[ "skip" := VBool true ]} ∪ d);
     run_cab := fun _ _ p _ _ _ => inr p;
     recipe_run := fun _ p => inr p |}.

(** An engine that accepts everything, and one that reports [src]
    invalid and [dst] unresolved without raising. *)
Definition accept_inputs (p : gmap string value) : raised + gmap string value := inr p.

Definition reject_inputs (p : gmap string value) : raised + gmap string value :=
  inr (<["src" := VError "not a file"]> (<["dst" := VUnresolved "{recipe.out}"]> p)).

Definition reject_src (p : gmap string value) : raised + gmap string value :=
  inr (<["src" := VError "not a file"]> p).

Definition copy_args (step_name : string) (skip_expr : option string) : StepArgs :=
  {| arg_cab := Some "copy"; arg_recipe := None;
     arg_params := {[ "src" := VStr "a"; "dst" := VStr "b" ]};
     arg_skip := skip_expr; arg_tags := []; arg_backend := None;
     arg_name := step_name; arg_fqname := "" |}.

Definition empty_args (step_name : string) : StepArgs :=
  {| arg_cab := None; arg_recipe := None; arg_params := ∅;
     arg_skip := None; arg_tags := []; arg_backend := None;
     arg_name := step_name; arg_fqname := "" |}.

(** The state of a fresh process holding the given step. *)
Definition fresh_state (s : Step) : State :=
  {| self := s; heap := []; _instantiated_cabs := ∅; trace := [] |}.

(** The step built from the arguments, or an empty one when the
    constructor raises. *)
Definition built (a : StepArgs) : Step :=
  match new_step a with
  | inr s => s
  | inl _ => init_fields a
  end.

(** Another step takes the place of [self]; the heap, the cache of
    cabs and the events stay. *)
Definition with_self (s : Step) (st : State) : State :=
  {| self := s; heap := heap st; _instantiated_cabs := _instantiated_cabs st;
     trace := trace st |}.

(** The calls of the runners among the events, and the evaluations of
    [skip] by the substitution engine. *)
Definition is_runner_call (ev : event) : bool :=
  match ev with RunCab _ _ | RunRecipe _ => true | _ => false end.

Definition runner_calls (tr : list event) : list event :=
  List.filter is_runner_call tr.

Definition is_skip_evaluation (ev : event) : bool :=
  match ev with EvaluateSkip _ => true | _ => false end.

Definition skip_evaluations (tr : list event) : list event :=
  List.filter is_skip_evaluation tr.

Definition warnings (tr : list event) : list event :=
  List.filter (fun ev => match ev with Log WARNING _ => true | _ => false end) tr.

(** [obj.name = new_name] for the cargo object behind a reference. *)
Definition assign_cargo_name (ref : nat) (new_name : string) (h : list Cargo) : list Cargo :=
  alter (set_cargo_name new_name) ref h.

(** Two sample steps on the same cab, and a step with nothing supplied
    (every parameter comes from the defaults). *)
Definition first_copy : Step := built (copy_args "first" None).
Definition second_copy : Step := built (copy_args "second" None).

Definition bare_args : StepArgs :=
  {| arg_cab := Some "copy"; arg_recipe := None;
     arg_params := {[ "mode" := VInt 3 ]};
     arg_skip := None; arg_tags := []; arg_backend := None;
     arg_name := "bare"; arg_fqname := "" |}.

Definition sample_env : Collaborators :=
  sample_collaborators accept_inputs accept_inputs.

Definition finalized_first : State :=
  (finalize sample_env None None None None 0 (fresh_state first_copy)).2.

Definition finalized_second : State :=
  (finalize sample_env None None None None 0 (with_self second_copy finalized_first)).2.

Definition finalized_bare : State :=
  (finalize sample_env None None None None 0 (fresh_state (built bare_args))).2.

(** A step that is set to be skipped, on collaborators whose
    prevalidation reports [src] invalid. *)
Definition strict_env : Collaborators := sample_collaborators reject_src accept_inputs.

Definition skipping_copy : Step := built (copy_args "s1" (Some "true")).

Definition finalized_skipping : State :=
  (finalize strict_env None None None None 0 (fresh_state skipping_copy)).2.

Definition prechecked_skipping : gmap string value :=
  <["src" := VError "not a file"]> (params (self finalized_skipping)).

(** Steps whose [skip] is unset and whose [skip] is a formula, the
    latter after a run without a namespace. *)
Definition plain_copy : Step := built (copy_args "s1" None).
Definition deferred_copy : Step := built (copy_args "s1" (Some "{recipe.flag}")).

Definition sample_ns : SubstitutionNS :=
  {| variables := {[ "recipe.flag" := VBool true ]}; current := ∅ |}.

Definition deferred_after_run : State :=
  (run sample_env None None None (fresh_state deferred_copy)).2.

(** Collaborators whose input validation reports [src] invalid and
    [dst] unresolved. *)
Definition lenient_env : Collaborators := sample_collaborators accept_inputs reject_inputs.

(** The runner of the cab was called exactly once during the run, with
    the backend selected for the step. *)
Definition runner_called_once
  (env : Collaborators) (subst : option SubstitutionNS) (batch : option Batch)
  (parent_log : option Logger) (st : State) (c : Cargo) : Prop :=
  exists p,
    runner_calls (trace (run env subst batch parent_log st).2)
    = runner_calls (trace st) ++ [RunCab p (select_backend env (self st) c)].

Definition prevalidated_plain : State :=
  (ensure_prevalidated sample_env (fresh_state plain_copy)).2.

Definition plain_params : gmap string value := params (self prevalidated_plain).

(** A step whose [skip] is the literal ["false"]. *)
Definition unskipped_copy : Step := built (copy_args "s1" (Some "false")).

(** The parameters of the sample step as [reject_inputs] returns them. *)
Definition rejected_params : gmap string value :=
  {[ "src" := VError "not a file"; "dst" := VUnresolved "{recipe.out}";
     "mode" := VInt 7; "verbose" := VBool false ]}.

(** * Relations between states *)

(** A computation keeps a relation between the state before and the
    state after, whatever its outcome. *)
Definition preserves (R : State -> State -> Prop) {A} (m : M A) : Prop :=
  forall st, R st (m st).2.

(** The runners are not called. *)
Definition same_runner_calls (st st' : State) : Prop :=
  runner_calls (trace st') = runner_calls (trace st).

(** The preset skip value stays, and the substitution engine is not
    asked about [skip] when there is one. *)
Definition same_preset_skip (st st' : State) : Prop :=
  _skip (self st') = _skip (self st) /\
  (_skip (self st) <> None ->
   skip_evaluations (trace st') = skip_evaluations (trace st)).

(** The binding of the cargo leaves the parameters of the step. *)
Definition same_params (st st' : State) : Prop :=
  params (self st') = params (self st).

Definition same_skip_evaluations (st st' : State) : Prop :=
  skip_evaluations (trace st') = skip_evaluations (trace st).

(** The state on entry to the binding of the cargo: [fqname] and
    [config] are set. *)
Definition finalize_entry (cfg : Config) (fq : option string) (st : State) : State :=
  {| self := set_config (Some cfg)
               (match fq with Some f => set_fqname f (self st) | None => self st end);
     heap := heap st; _instantiated_cabs := _instantiated_cabs st;
     trace := trace st |}.

Definition chosen_logger (env : Collaborators) (log : option Logger) (s : Step) : Logger :=
  match log with Some l => l | None => getChild env (fqname s) end.

(** The state [prevalidate] leaves once the cargo has returned [p]. *)
Definition prevalidated (st1 : State) (c : Cargo) (p : gmap string value) : State :=
  {| self := set_validated_params (Some p) (self st1);
     heap := heap st1; _instantiated_cabs := _instantiated_cabs st1;
     trace := trace st1
              ++ [Log DEBUG (cargo_name c +:+ ": missing, invalid and unresolved parameters")] |}.

(** * Further definitions *)

(** The node reached from [section] by following [elements], each one
    an entry of the section before it (nested lookup, as a reference
    for the resolver). *)
Fixpoint descend (section : node) (elements : list string) : option node :=
  match elements with
  | [] => Some section
  | element :: rest =>
      match section with
      | Dict entries =>
          match entries !! element with
          | Some n => descend n rest
          | None => None
          end
      | _ => None
      end
  end.

(** The section a key starts from and the segments the resolver walks:
    the base and all segments but the last, or, for a key with a
    leading separator, the current section and the segments after the
    first but the last. *)
Definition walked (key : string) (base : node) (current : option node)
  : option (node * list string) :=
  let path := split_dots key in
  if negb (is_empty_string (hd "" path)) then Some (base, removelast path)
  else match current with
       | Some section => Some (section, removelast (tl path))
       | None => None
       end.

Definition tree_abc : node :=
  Dict {[ "a" := Dict {[ "b" := Dict {[ "c" := Num 1 ]} ]} ]}.

(** The part of [finalize] that follows the binding of the cargo
    (lines 164-185), for reasoning about the two parts apart. *)
Definition finalize_bound
  (env : Collaborators) (cfg : Config) (log : option Logger) (logopts : option string)
  (nesting : nat) : M unit :=
  (s <- get_self ;;
   rc <- get_cargo ;;
   let c := set_cargo_name (name s) rc.2 in
   store rc.1 c ;;
   p <- lift (flatten_param_dict env c (params s)) ;;
   modify_self (set_params p) ;;
   let log := match log with
              | Some l => l
              | None => getChild env (fqname s)
              end in
   c <- lift (cargo_finalize env c cfg log logopts (fqname s) nesting) ;;
   store rc.1 c ;;
   let dflt := build_defaults c in
   modify_self (set_defaults dflt) ;;
   modify_self (fun s => set_params (merge_defaults dflt (params s)) s))%lifecycle.

(** The binding of the cargo, by the kind of target. *)
Definition bind_cargo (env : Collaborators) (cfg : Config) : M unit :=
  (s <- get_self ;;
   if recipe_truthy s then bind_recipe env cfg else bind_cab env cfg)%lifecycle.

(** [Step.update_parameter] *)
Definition update_parameter (nm : string) (v : value) : M unit :=
  modify_self (fun s => set_params (<[nm := v]> (params s)) s).

(** The property [missing_params]: the required names of the schema
    that the validated parameters lack, with their schemas.  Before any
    validation the membership test is on [None], which fails as soon as
    a required schema gets to it. *)
Definition missing_params (s : Step) (c : Cargo) : exn + list (string * Schema) :=
  match validated_params s with
  | Some vp =>
      inr (filter (fun kv => required kv.2 = true /\ vp !! kv.1 = None)
                  (map_to_list (inputs_outputs c)))
  | None =>
      if existsb (fun kv => required kv.2) (map_to_list (inputs_outputs c))
      then inl (TypeError "argument of type 'NoneType' is not iterable")
      else inr []
  end.

(** A step on a cab the sample configuration does not have, and the
    state its [finalize] leaves. *)
Definition unknown_step : Step :=
  built {| arg_cab := Some "move"; arg_recipe := None; arg_params := ∅;
           arg_skip := None; arg_tags := []; arg_backend := None;
           arg_name := "s9"; arg_fqname := "" |}.

Definition unknown_failed : State :=
  (finalize sample_env None None None None 0 (fresh_state unknown_step)).2.

(** Collaborators whose [cargo.finalize] raises. *)
Definition broken_env : Collaborators :=
  {| CONFIG := sample_config;
     getChild := getChild sample_env;
     Cab_init := Cab_init sample_env;
     Recipe_init := Recipe_init sample_env;
     flatten_param_dict := flatten_param_dict sample_env;
     cargo_finalize := fun _ _ _ _ _ _ =>
       inl {| cls := OtherException; message := "no such image"; logged := false |};
     cargo_prevalidate := cargo_prevalidate sample_env;
     validate_inputs := validate_inputs sample_env;
     validate_outputs := validate_outputs sample_env;
     evaluate_and_substitute := evaluate_and_substitute sample_env;
     run_cab := run_cab sample_env;
     recipe_run := recipe_run sample_env |}.

Definition half_finalized : State :=
  (finalize broken_env None None None None 0 (fresh_state plain_copy)).2.

(** Two steps given one recipe object, which is already in the heap. *)
Definition recipe_object : Cargo := with_ctype RecipeType copy_cargo.

Definition nested_args (step_name : string) : StepArgs :=
  {| arg_cab := None; arg_recipe := Some (RecipeObject 0); arg_params := ∅;
     arg_skip := None; arg_tags := []; arg_backend := None;
     arg_name := step_name; arg_fqname := "" |}.

Definition nested_start : State :=
  {| self := built (nested_args "n1"); heap := [recipe_object];
     _instantiated_cabs := ∅; trace := [] |}.

Definition nested_first : State :=
  (finalize sample_env None None None None 0 nested_start).2.

Definition nested_second : State :=
  (finalize sample_env None None None None 0
     (with_self (built (nested_args "n2")) nested_first)).2.

(** The sample step after a skipped run whose input validation left
    [src] invalid and [dst] unresolved. *)
Definition classified_step : Step :=
  self (run lenient_env None None None (fresh_state skipping_copy)).2.

(** A computation adds at most one call of a runner to the events. *)
Definition at_most_one_runner_call {A} (m : M A) : Prop :=
  forall st,
    exists evs,
      runner_calls (trace (m st).2) = runner_calls (trace st) ++ evs
      /\ (evs = [] \/ (exists p b, evs = [RunCab p b]) \/ (exists p, evs = [RunRecipe p])).

(** The outcomes of a computation in a step that is being skipped and
    has validated parameters: it returns, or it passes on an exception
    of a collaborator that is not a [ScabhaBaseException]; the step
    stays one that is being skipped and keeps validated parameters. *)
Definition tolerant {A} (m : M A) : Prop :=
  forall st,
    skip_truthy (self st) = true ->
    is_Some (validated_params (self st)) ->
    match (m st).1 with
    | inr _ => True
    | inl (Propagated e) => is_scabha e = false
    | inl _ => False
    end
    /\ skip_truthy (self (m st).2) = true
    /\ is_Some (validated_params (self (m st).2)).

Definition prevalidated_skipping : State :=
  (ensure_prevalidated lenient_env (fresh_state skipping_copy)).2.

(** * Properties *)

(** ** Dotted references *)

Lemma split_dots_nonempty key : split_dots key <> [].
Proof.
  destruct key as [|c rest]; simpl; [discriminate|].
  destruct (Ascii.eqb c "."); [discriminate|].
  destruct (split_dots rest); discriminate.
Qed.

Lemma contains_insert k v (m : gmap string node) :
  contains (Dict (<[k := v]> m)) k = inr true.
Proof.
  simpl. f_equal. apply bool_decide_eq_true. rewrite lookup_insert_eq. eauto.
Qed.

Lemma getitem_insert k v (m : gmap string node) :
  getitem (Dict (<[k := v]> m)) k = inr v.
Proof. simpl. by rewrite lookup_insert_eq. Qed.

Lemma node_truthy_insert k v (m : gmap string node) :
  node_truthy (Dict (<[k := v]> m)) = true.
Proof.
  simpl. apply negb_true_iff, bool_decide_eq_false.
  apply insert_non_empty.
Qed.

(** C3: ["a.b.c"] resolved against a base whose section [a] has an entry
    [b] returns that entry and the name ["c"], whatever the entry holds
    (the final name is not looked up); in particular against
    [{a: {b: {c: 1}}}] with no current section it returns [{c: 1}] and
    ["c"].  [".x"] with current section [{x: 5}], or any current section
    with an entry [x], returns the current section and ["x"]. *)
Theorem resolve_dotted_reference_examples :
  (forall (holder : node) (a_rest base_rest : gmap string node)
          (current : option node) (context : string),
      resolve_dotted_reference "a.b.c"
        (Dict (<["a" := Dict (<["b" := holder]> a_rest)]> base_rest)) current context
      = inr (holder, "c"))
  /\ resolve_dotted_reference "a.b.c"
       (Dict {[ "a" := Dict {[ "b" := Dict {[ "c" := Num 1 ]} ]} ]}) None "step"
     = inr (Dict {[ "c" := Num 1 ]}, "c")
  /\ resolve_dotted_reference "a.b.c"
       (Dict {[ "a" := Dict {[ "b" := Dict ∅ ]} ]}) None "step"
     = inr (Dict ∅, "c")
  /\ (forall (base v : node) (rest : gmap string node) (context : string),
         resolve_dotted_reference ".x" base (Some (Dict (<["x" := v]> rest))) context
         = inr (Dict (<["x" := v]> rest), "x"))
  /\ resolve_dotted_reference ".x"
       (Dict {[ "a" := Num 0 ]}) (Some (Dict {[ "x" := Num 5 ]})) "step"
     = inr (Dict {[ "x" := Num 5 ]}, "x").
Proof.
  assert (Habc : forall holder a_rest base_rest current context,
             resolve_dotted_reference "a.b.c"
               (Dict (<["a" := Dict (<["b" := holder]> a_rest)]> base_rest))
               current context = inr (holder, "c")).
  { intros. unfold resolve_dotted_reference, resolve_path.
    cbn [split_dots Ascii.eqb Bool.eqb hd is_empty_string negb List.last removelast walk].
    rewrite contains_insert, getitem_insert.
    rewrite contains_insert, getitem_insert. reflexivity. }
  assert (Hx : forall base v rest context,
             resolve_dotted_reference ".x" base (Some (Dict (<["x" := v]> rest))) context
             = inr (Dict (<["x" := v]> rest), "x")).
  { intros. unfold resolve_dotted_reference, resolve_path.
    cbn [split_dots Ascii.eqb Bool.eqb hd tl is_empty_string negb].
    rewrite node_truthy_insert. reflexivity. }
  split; [exact Habc|].
  split; [apply (Habc (Dict {[ "c" := Num 1 ]}) ∅ ∅)|].
  split; [apply (Habc (Dict ∅) ∅ ∅)|].
  split; [exact Hx|].
  apply (Hx (Dict {[ "a" := Num 0 ]}) (Num 5) ∅).
Qed.

(** C2: the key ["."] (exactly the separator) with a current section is
    not rejected: the resolver returns the current section and the empty
    name, and the branch that reports ['.' not permitted] is taken for
    the empty key only. *)
Theorem resolve_separator_key_accepted :
  resolve_dotted_reference "."
    (Dict {[ "a" := Num 0 ]}) (Some (Dict {[ "x" := Num 5 ]})) "step"
  = inr (Dict {[ "x" := Num 5 ]}, "")
  /\ (forall (base v : node) (rest : gmap string node) (context : string),
         resolve_dotted_reference "." base (Some (Dict (<["x" := v]> rest))) context
         = inr (Dict (<["x" := v]> rest), ""))
  /\ (forall (base v : node) (rest : gmap string node) (context : string),
         resolve_dotted_reference "" base (Some (Dict (<["x" := v]> rest))) context
         = inl (NameError (context +:+ ": '.' not permitted"))).
Proof.
  assert (Hdot : forall base v rest context,
             resolve_dotted_reference "." base (Some (Dict (<["x" := v]> rest))) context
             = inr (Dict (<["x" := v]> rest), "")).
  { intros. unfold resolve_dotted_reference, resolve_path.
    cbn [split_dots Ascii.eqb Bool.eqb hd tl is_empty_string negb].
    rewrite node_truthy_insert. reflexivity. }
  split; [apply (Hdot (Dict {[ "a" := Num 0 ]}) (Num 5) ∅)|].
  split; [exact Hdot|].
  intros. unfold resolve_dotted_reference.
  cbn [split_dots hd tl is_empty_string negb].
  rewrite node_truthy_insert. reflexivity.
Qed.

(** ** Construction *)

Lemma post_init_exactly_one s s' :
  post_init s = inr s' -> cab_truthy s' = negb (recipe_truthy s').
Proof.
  unfold post_init. simpl.
  destruct (cab_truthy _) eqn:Hc, (recipe_truthy _) eqn:Hr; simpl; try discriminate;
    intros [= <-]; unfold cab_truthy, recipe_truthy in *; simpl in *;
    rewrite Hc, Hr; reflexivity.
Qed.

(** C9: a step constructed with neither target fails with a
    [StepValidationError] whose text is the same for every step name:
    the braces of [{self.name}] are in the message as written, the name
    of the step (here [s1]) is not. *)
Theorem post_init_error_lacks_step_name :
  new_step (empty_args "s1")
  = inl (StepValidationError
           "step '{self.name}': step must specify either a cab or a nested recipe, but not both"
           None)
  /\ substring_of "s1"
       "step '{self.name}': step must specify either a cab or a nested recipe, but not both"
     = false
  /\ forall step_name : string,
       new_step (empty_args step_name) = new_step (empty_args "s1").
Proof.
  split; [reflexivity|]. split; [vm_compute; reflexivity|].
  intros step_name. unfold new_step, post_init, empty_args, init_fields. simpl.
  reflexivity.
Qed.

(** ** Reasoning about the lifecycle monad *)

Lemma bind_success {A B} (m : M A) (f : A -> M B) st b st' :
  bind m f st = (inr b, st') ->
  exists a st1, m st = (inr a, st1) /\ f a st1 = (inr b, st').
Proof.
  unfold bind. destruct (m st) as [[e|a] st1]; [discriminate|]. eauto.
Qed.

Lemma bind_eq_success {A B} (m : M A) (f : A -> M B) st a st1 :
  m st = (inr a, st1) -> bind m f st = f a st1.
Proof. unfold bind. by intros ->. Qed.

Lemma bind_eq_failure {A B} (m : M A) (f : A -> M B) st e st1 :
  m st = (inl e, st1) -> bind m f st = (inl e, st1).
Proof. unfold bind. by intros ->. Qed.

Lemma lift_success {A} (r : raised + A) st a st' :
  lift r st = (inr a, st') -> r = inr a /\ st' = st.
Proof. destruct r; simpl; unfold raise, ret; intros [= ]; subst; auto. Qed.

Lemma lift_exn_success {A} (r : exn + A) st a st' :
  lift_exn r st = (inr a, st') -> r = inr a /\ st' = st.
Proof. destruct r; simpl; unfold raise, ret; intros [= ]; subst; auto. Qed.

Lemma get_cargo_success st rc st' :
  get_cargo st = (inr rc, st') ->
  st' = st /\ cargo (self st) = Some rc.1 /\ heap st !! rc.1 = Some rc.2.
Proof.
  unfold get_cargo. destruct (cargo (self st)) as [ref|]; [|discriminate].
  destruct (heap st !! ref) as [c|] eqn:Hc; [|discriminate].
  intros [= <- <-]. auto.
Qed.

Lemma get_cargo_eq st ref c :
  cargo (self st) = Some ref -> heap st !! ref = Some c ->
  get_cargo st = (inr (ref, c), st).
Proof. unfold get_cargo. by intros -> ->. Qed.

Section Preserves.

Context (R : State -> State -> Prop) `{!PreOrder R}.

Lemma preserves_ret {A} (a : A) : preserves R (ret a).
Proof. intros st. simpl. reflexivity. Qed.

Lemma preserves_raise {A} (e : exn) : preserves R (raise (A := A) e).
Proof. intros st. simpl. reflexivity. Qed.

Lemma preserves_bind {A B} (m : M A) (f : A -> M B) :
  preserves R m -> (forall a, preserves R (f a)) -> preserves R (bind m f).
Proof.
  intros Hm Hf st. unfold bind. specialize (Hm st).
  destruct (m st) as [[e|a] st1]; simpl in *; [done|].
  etrans; [exact Hm|apply Hf].
Qed.

Lemma preserves_get_self : preserves R get_self.
Proof. intros st. simpl. reflexivity. Qed.

Lemma preserves_get_state : preserves R get_state.
Proof. intros st. simpl. reflexivity. Qed.

Lemma preserves_get_cargo : preserves R get_cargo.
Proof.
  intros st. unfold get_cargo.
  destruct (cargo (self st)); [destruct (heap st !! _)|]; simpl; reflexivity.
Qed.

Lemma preserves_lift {A} (r : raised + A) : preserves R (lift r).
Proof. destruct r; [apply preserves_raise|apply preserves_ret]. Qed.

Lemma preserves_lift_exn {A} (r : exn + A) : preserves R (lift_exn r).
Proof. destruct r; [apply preserves_raise|apply preserves_ret]. Qed.

Lemma preserves_emit_all evs :
  (forall ev, In ev evs -> preserves R (emit ev)) -> preserves R (emit_all evs).
Proof.
  induction evs as [|ev evs IH]; intros H; simpl.
  - apply preserves_ret.
  - apply preserves_bind; [apply H; by left|].
    intros _. apply IH. intros ev' Hin. apply H. by right.
Qed.

End Preserves.

(** One step of a preservation proof: the shape of the computation
    decides the rule. *)
Ltac preserves_step :=
  lazymatch goal with
  | |- preserves _ (bind _ _) =>
      apply preserves_bind;
      lazymatch goal with
      | |- PreOrder _ => apply _
      | |- forall _, _ => intros ?
      | |- _ => idtac
      end
  | |- preserves _ (ret _) => apply preserves_ret
  | |- preserves _ (raise _) => apply preserves_raise
  | |- preserves _ get_self => apply preserves_get_self
  | |- preserves _ get_state => apply preserves_get_state
  | |- preserves _ get_cargo => apply preserves_get_cargo
  | |- preserves _ (lift _) => apply preserves_lift
  | |- preserves _ (lift_exn _) => apply preserves_lift_exn
  | |- preserves _ (match ?x with _ => _ end) => destruct x
  | |- preserves _ (let _ := _ in _) => cbv zeta
  end;
  try (lazymatch goal with |- PreOrder _ => apply _ end).

(** ** What each part of the lifecycle leaves untouched *)

#[local] Instance same_runner_calls_preorder : PreOrder same_runner_calls.
Proof.
  split; [intros st; reflexivity|].
  intros st1 st2 st3 H12 H23. unfold same_runner_calls in *. congruence.
Qed.

#[local] Instance same_preset_skip_preorder : PreOrder same_preset_skip.
Proof.
  split; [intros st; split; reflexivity|].
  intros st1 st2 st3 [E12 H12] [E23 H23]. split; [congruence|].
  intros Hs. rewrite H23, H12; congruence.
Qed.

Lemma runner_calls_app tr ev :
  runner_calls (tr ++ [ev]) = runner_calls tr ++ (if is_runner_call ev then [ev] else []).
Proof. unfold runner_calls. rewrite List.filter_app. simpl. by destruct (is_runner_call ev). Qed.

Lemma skip_evaluations_app tr ev :
  skip_evaluations (tr ++ [ev])
  = skip_evaluations tr ++ (if is_skip_evaluation ev then [ev] else []).
Proof.
  unfold skip_evaluations. rewrite List.filter_app. simpl.
  by destruct (is_skip_evaluation ev).
Qed.

Lemma quiet_emit ev :
  is_runner_call ev = false -> preserves same_runner_calls (emit ev).
Proof.
  intros H st. unfold same_runner_calls. simpl.
  rewrite runner_calls_app, H. apply app_nil_r.
Qed.

Lemma quiet_modify_self f : preserves same_runner_calls (modify_self f).
Proof. intros st. reflexivity. Qed.

Lemma quiet_alloc c : preserves same_runner_calls (alloc c).
Proof. intros st. reflexivity. Qed.

Lemma quiet_store ref c : preserves same_runner_calls (store ref c).
Proof. intros st. reflexivity. Qed.

Lemma quiet_cache_cab k ref : preserves same_runner_calls (cache_cab k ref).
Proof. intros st. reflexivity. Qed.

Lemma preset_emit ev :
  is_skip_evaluation ev = false -> preserves same_preset_skip (emit ev).
Proof.
  intros H st. split; [reflexivity|]. intros _. simpl.
  rewrite skip_evaluations_app, H. apply app_nil_r.
Qed.

Lemma preset_modify_self f :
  (forall s, _skip (f s) = _skip s) -> preserves same_preset_skip (modify_self f).
Proof. intros H st. split; [apply H|reflexivity]. Qed.

Lemma preset_alloc c : preserves same_preset_skip (alloc c).
Proof. intros st. split; reflexivity. Qed.

Lemma preset_store ref c : preserves same_preset_skip (store ref c).
Proof. intros st. split; reflexivity. Qed.

Lemma preset_cache_cab k ref : preserves same_preset_skip (cache_cab k ref).
Proof. intros st. split; reflexivity. Qed.

#[local] Instance same_params_preorder : PreOrder same_params.
Proof.
  split; [intros st; reflexivity|].
  intros st1 st2 st3 H12 H23. unfold same_params in *. congruence.
Qed.

Ltac quiet_leaf :=
  first
    [ apply quiet_emit; reflexivity
    | apply quiet_modify_self
    | apply quiet_alloc
    | apply quiet_store
    | apply quiet_cache_cab
    | apply preset_emit; reflexivity
    | apply preset_modify_self; intros; reflexivity
    | apply preset_alloc
    | apply preset_store
    | apply preset_cache_cab ].

Ltac preserves_auto :=
  repeat first [ preserves_step; cbn beta iota | quiet_leaf ].

Section Untouched.

Variable env : Collaborators.
Variable R : State -> State -> Prop.
Context `{!PreOrder R}.
Hypothesis R_log : forall lvl msg, preserves R (emit (Log lvl msg)).
Hypothesis R_summary : forall lvl msg, preserves R (emit (LogSummary lvl msg)).
Hypothesis R_set_current : forall p, preserves R (emit (SetCurrent p)).
Hypothesis R_merge_current : forall p, preserves R (emit (MergeCurrent p)).
Hypothesis R_alloc : forall c, preserves R (alloc c).
Hypothesis R_store : forall ref c, preserves R (store ref c).
Hypothesis R_cache : forall k ref, preserves R (cache_cab k ref).
Hypothesis R_set_fqname : forall v, preserves R (modify_self (set_fqname v)).
Hypothesis R_set_recipe : forall v, preserves R (modify_self (set_recipe v)).
Hypothesis R_set_cargo : forall v, preserves R (modify_self (set_cargo v)).
Hypothesis R_set_config : forall v, preserves R (modify_self (set_config v)).
Hypothesis R_set_defaults : forall v, preserves R (modify_self (set_defaults v)).
Hypothesis R_set_params : forall f,
  preserves R (modify_self (fun s => set_params (f s) s)).
Hypothesis R_set_validated : forall f,
  preserves R (modify_self (fun s => set_validated_params (f s) s)).

Ltac untouched_leaf :=
  first
    [ apply R_log | apply R_summary | apply R_set_current | apply R_merge_current
    | apply R_alloc | apply R_store | apply R_cache | apply R_set_fqname
    | apply R_set_recipe | apply R_set_cargo | apply R_set_config
    | apply R_set_defaults
    | apply (R_set_params (fun _ => _)) | apply (R_set_params (fun s => _ (params s)))
    | apply (R_set_validated (fun _ => _)) ].

Ltac untouched := repeat first [ preserves_step; cbn beta iota | untouched_leaf ].

Lemma bind_recipe_untouched cfg : preserves R (bind_recipe env cfg).
Proof. unfold bind_recipe. untouched. Qed.

Lemma bind_cab_untouched cfg : preserves R (bind_cab env cfg).
Proof. unfold bind_cab. untouched. Qed.

Lemma finalize_untouched cfg log logopts fq nesting :
  preserves R (finalize env cfg log logopts fq nesting).
Proof.
  unfold finalize, bind_recipe, bind_cab. untouched.
Qed.

Lemma prevalidate_untouched subst root : preserves R (prevalidate env subst root).
Proof.
  unfold prevalidate.
  repeat first
    [ apply finalize_untouched | preserves_step; cbn beta iota | untouched_leaf ].
Qed.

Lemma ensure_prevalidated_untouched : preserves R (ensure_prevalidated env).
Proof.
  unfold ensure_prevalidated.
  repeat first
    [ apply prevalidate_untouched | preserves_step; cbn beta iota | untouched_leaf ].
Qed.

Lemma log_validation_error_untouched lvl what e :
  preserves R (log_validation_error lvl what e).
Proof.
  unfold log_validation_error. preserves_step; [|untouched].
  destruct (logged e); [untouched|].
  destruct (cls e); untouched.
  apply preserves_emit_all; [apply _|].
  intros ev Hin. apply in_map_iff in Hin as (err & <- & _). apply R_log.
Qed.

Lemma update_validated_untouched p : preserves R (update_validated p).
Proof. unfold update_validated. untouched. Qed.

Lemma validate_step_inputs_untouched skip_now subst c params0 :
  preserves R (validate_step_inputs env skip_now subst c params0).
Proof.
  unfold validate_step_inputs.
  repeat first
    [ apply log_validation_error_untouched
    | apply update_validated_untouched
    | preserves_step; cbn beta iota
    | untouched_leaf ].
Qed.

Lemma validate_step_outputs_untouched skip_now c params2 subst2 :
  preserves R (validate_step_outputs env skip_now c params2 subst2).
Proof.
  unfold validate_step_outputs.
  repeat first
    [ apply log_validation_error_untouched
    | apply update_validated_untouched
    | preserves_step; cbn beta iota
    | untouched_leaf ].
Qed.

End Untouched.

Lemma evaluate_skip_quiet env subst :
  preserves same_runner_calls (evaluate_skip env subst).
Proof. unfold evaluate_skip. preserves_auto. Qed.



(** Nothing before or after the dispatch calls a runner. *)
Lemma ensure_prevalidated_quiet env :
  preserves same_runner_calls (ensure_prevalidated env).
Proof.
  apply ensure_prevalidated_untouched; try apply _; intros; quiet_leaf.
Qed.

Lemma validate_step_inputs_quiet env skip_now subst c params0 :
  preserves same_runner_calls (validate_step_inputs env skip_now subst c params0).
Proof.
  apply validate_step_inputs_untouched; try apply _; intros; quiet_leaf.
Qed.

Lemma validate_step_outputs_quiet env skip_now c params2 subst2 :
  preserves same_runner_calls (validate_step_outputs env skip_now c params2 subst2).
Proof.
  apply validate_step_outputs_untouched; try apply _; intros; quiet_leaf.
Qed.

Lemma dispatch_skipped_quiet env skip_now c params1 subst subst1 batch :
  truthy skip_now = true ->
  preserves same_runner_calls (dispatch env skip_now c params1 subst subst1 batch).
Proof. intros H. unfold dispatch. rewrite H. cbn [negb]. preserves_auto. Qed.



(** ** Finalization *)

(** A successful first call of [finalize], step by step. *)
Lemma finalize_success env cfg log logopts fq nesting st st' :
  finalized (self st) = false ->
  finalize env cfg log logopts fq nesting st = (inr tt, st') ->
  exists st1 ref c0 p c1,
    let cfg' := effective_config env cfg in
    let st0 := finalize_entry cfg' fq st in
    let named := set_cargo_name (name (self st1)) c0 in
    (if recipe_truthy (self st0) then bind_recipe env cfg' else bind_cab env cfg') st0
    = (inr tt, st1)
    /\ cargo (self st1) = Some ref
    /\ heap st1 !! ref = Some c0
    /\ flatten_param_dict env named (params (self st1)) = inr p
    /\ cargo_finalize env named cfg' (chosen_logger env log (self st1)) logopts
         (fqname (self st1)) nesting = inr c1
    /\ self st' = set_params (merge_defaults (build_defaults c1) p)
                    (set_defaults (build_defaults c1) (set_params p (self st1)))
    /\ heap st' = <[ref := c1]> (<[ref := named]> (heap st1))
    /\ _instantiated_cabs st' = _instantiated_cabs st1
    /\ trace st' = trace st1.
Proof.
  intros Hnot H. unfold finalize in H.
  unfold bind at 1 in H. unfold get_self at 1 in H. rewrite Hnot in H.
  apply bind_success in H as ([] & sta & Ha & H).
  apply bind_success in H as ([] & stb & Hb & H).
  apply bind_success in H as (s0 & stc & Hc & H).
  injection Hc as <- <-.
  apply bind_success in H as ([] & st1 & Hbind & H).
  apply bind_success in H as (s1 & std & Hd & H).
  injection Hd as <- <-.
  apply bind_success in H as ([ref c0] & ste & He & H).
  apply get_cargo_success in He as (-> & Hcargo & Hheap). simpl in *.
  apply bind_success in H as ([] & stf & Hf & H).
  injection Hf as <-.
  apply bind_success in H as (p & stg & Hg & H).
  apply lift_success in Hg as [Hflat ->].
  apply bind_success in H as ([] & sth & Hh & H).
  injection Hh as <-.
  apply bind_success in H as (c1 & sti & Hi & H).
  apply lift_success in Hi as [Hfin ->].
  apply bind_success in H as ([] & stj & Hj & H).
  injection Hj as <-.
  apply bind_success in H as ([] & stk & Hk & H).
  injection Hk as <-.
  injection H as <-.
  assert (stb = finalize_entry (effective_config env cfg) fq st) as ->.
  { destruct fq; injection Ha as <-; injection Hb as <-; reflexivity. }
  exists st1, ref, c0, p, c1. simpl.
  repeat split; assumption.
Qed.

Lemma finalize_finalized env cfg log logopts fq nesting st st' :
  finalize env cfg log logopts fq nesting st = (inr tt, st') ->
  finalized (self st') = true.
Proof.
  intros H. destruct (finalized (self st)) eqn:Hf.
  - unfold finalize, bind, get_self in H. rewrite Hf in H.
    injection H as <-. exact Hf.
  - apply finalize_success in H as (st1 & ref & c0 & p & c1 & H); [|exact Hf].
    destruct H as (_ & Hcargo & _ & _ & _ & Hself & _).
    unfold finalized. rewrite Hself. simpl. by rewrite Hcargo.
Qed.

Lemma finalize_when_finalized env cfg log logopts fq nesting st :
  finalized (self st) = true ->
  finalize env cfg log logopts fq nesting st = (inr tt, st).
Proof. intros Hf. unfold finalize, bind, get_self. by rewrite Hf. Qed.

(** C4: after a successful call of [finalize], a second call (with any
    arguments) returns and leaves the state as it is: the step with its
    cargo reference and its parameters, the cargo objects, and the
    cache of instantiated cabs. *)
Theorem finalize_idempotent env cfg log logopts fq nesting
        cfg2 log2 logopts2 fq2 nesting2 st st' :
  finalize env cfg log logopts fq nesting st = (inr tt, st') ->
  finalize env cfg2 log2 logopts2 fq2 nesting2 st' = (inr tt, st')
  /\ let st'' := (finalize env cfg2 log2 logopts2 fq2 nesting2 st').2 in
     cargo (self st'') = cargo (self st')
     /\ params (self st'') = params (self st')
     /\ heap st'' = heap st'
     /\ _instantiated_cabs st'' = _instantiated_cabs st'.
Proof.
  intros H. apply finalize_finalized in H.
  rewrite (finalize_when_finalized _ _ _ _ _ _ _ H). simpl. auto.
Qed.

Lemma finalize_idempotent_witness :
  finalize sample_env None None None None 0 (fresh_state first_copy)
  = (inr tt, finalized_first)
  /\ finalize sample_env (Some sample_config) (Some "log") None (Some "r.first") 1
       finalized_first
     = (inr tt, finalized_first)
  /\ _instantiated_cabs finalized_first = {[ "copy" := 0 ]}.
Proof.
  split; [vm_compute; reflexivity|]. split.
  - apply (finalize_idempotent sample_env None None None None 0
             (Some sample_config) (Some "log") None (Some "r.first") 1
             (fresh_state first_copy) finalized_first).
    vm_compute. reflexivity.
  - vm_compute. reflexivity.
Defined.

Lemma merge_defaults_lookup (dflt p : gmap string value) nm :
  merge_defaults dflt p !! nm
  = match p !! nm with Some v => Some v | None => dflt !! nm end.
Proof.
  unfold merge_defaults. revert nm.
  apply (map_fold_weak_ind
           (fun (r : gmap string value) (m : gmap string value) =>
              forall nm, r !! nm = match p !! nm with
                                   | Some v => Some v
                                   | None => m !! nm
                                   end)).
  - intros nm. rewrite lookup_empty. by destruct (p !! nm).
  - intros i x m r Hm IH nm.
    destruct (r !! i) as [w|] eqn:Hr.
    + rewrite IH. destruct (p !! nm) as [v|] eqn:Hp; [done|].
      destruct (decide (i = nm)) as [->|Hne].
      * rewrite IH, Hp, Hm in Hr. discriminate.
      * by rewrite lookup_insert_ne.
    + destruct (decide (i = nm)) as [->|Hne].
      * rewrite !lookup_insert_eq. rewrite IH, Hm in Hr.
        destruct (p !! nm); [discriminate|done].
      * rewrite !lookup_insert_ne by done. apply IH.
Qed.

Lemma build_defaults_lookup c nm :
  build_defaults c !! nm
  = match cargo_defaults c !! nm with
    | Some v => Some v
    | None =>
        match inputs_outputs c !! nm with
        | Some sch =>
            if negb (is_none (default sch)) && negb (is_unresolved (default sch))
            then Some (default sch) else None
        | None => None
        end
    end.
Proof.
  unfold build_defaults. rewrite lookup_union, lookup_omap.
  destruct (cargo_defaults c !! nm) as [v|]; simpl.
  - by destruct (inputs_outputs c !! nm ≫= schema_default).
  - rewrite (left_id_L None _). by destruct (inputs_outputs c !! nm).
Qed.

(** C5: after a successful first [finalize], with [p] the flattened
    parameters (the parameters before the merge) and [c] the finalized
    cargo: the defaults are the cargo's own defaults and, for the names
    these lack, the schema defaults that are present and not
    unresolved; a name of [p] keeps its value, and a name absent from
    [p] gets its default exactly when there is one. *)
Theorem finalize_merges_defaults env cfg log logopts fq nesting st st' :
  finalized (self st) = false ->
  finalize env cfg log logopts fq nesting st = (inr tt, st') ->
  exists ref c c0 p,
    cargo (self st') = Some ref
    /\ heap st' !! ref = Some c
    /\ flatten_param_dict env c0 (params (self st)) = inr p
    /\ defaults (self st') = build_defaults c
    /\ (forall nm,
          defaults (self st') !! nm
          = match cargo_defaults c !! nm with
            | Some v => Some v
            | None =>
                match inputs_outputs c !! nm with
                | Some sch =>
                    if negb (is_none (default sch)) && negb (is_unresolved (default sch))
                    then Some (default sch) else None
                | None => None
                end
            end)
    /\ (forall nm v, p !! nm = Some v -> params (self st') !! nm = Some v)
    /\ (forall nm, p !! nm = None ->
                   params (self st') !! nm = defaults (self st') !! nm).
Proof.
  intros Hnot H.
  apply finalize_success in H as (st1 & ref & c0 & p & c1 & H); [|exact Hnot].
  cbv zeta in H.
  destruct H as (Hbind & Hcargo & Hheap & Hflat & Hfin & Hself & Hh & _ & _).
  exists ref, c1, (set_cargo_name (name (self st1)) c0), p.
  assert (Hparams : params (self st1) = params (self st)).
  { assert (Hpres : same_params (finalize_entry (effective_config env cfg) fq st) st1).
    { destruct (recipe_truthy _).
      - pose proof (bind_recipe_untouched env same_params) as Hb.
        specialize (Hb ltac:(intros c0' st0; reflexivity)
                       ltac:(intros v st0; reflexivity)
                       ltac:(intros v st0; reflexivity)
                       (effective_config env cfg)
                       (finalize_entry (effective_config env cfg) fq st)).
        by rewrite Hbind in Hb.
      - pose proof (bind_cab_untouched env same_params) as Hb.
        specialize (Hb ltac:(intros c0' st0; reflexivity)
                       ltac:(intros k r st0; reflexivity)
                       ltac:(intros v st0; reflexivity)
                       (effective_config env cfg)
                       (finalize_entry (effective_config env cfg) fq st)).
        by rewrite Hbind in Hb. }
    unfold same_params in Hpres. rewrite Hpres. by destruct fq. }
  assert (Hlt : ref < length (heap st1)) by (eapply lookup_lt_Some; eassumption).
  split; [rewrite Hself; exact Hcargo|].
  split; [rewrite Hh; apply list_lookup_insert_eq; by rewrite length_insert|].
  split; [by rewrite <- Hparams|].
  assert (Hd : defaults (self st') = build_defaults c1) by (by rewrite Hself).
  split; [exact Hd|].
  split; [intros nm; rewrite Hd; apply build_defaults_lookup|].
  split.
  - intros nm v Hp. rewrite Hself. simpl. by rewrite merge_defaults_lookup, Hp.
  - intros nm Hp. rewrite Hd, Hself. simpl. by rewrite merge_defaults_lookup, Hp.
Qed.

Lemma finalize_merges_defaults_witness :
  finalized (self (fresh_state (built bare_args))) = false
  /\ finalize sample_env None None None None 0 (fresh_state (built bare_args))
     = (inr tt, finalized_bare)
  /\ exists ref c c0 p,
       cargo (self finalized_bare) = Some ref
       /\ heap finalized_bare !! ref = Some c
       /\ flatten_param_dict sample_env c0 (params (self (fresh_state (built bare_args))))
          = inr p
       /\ defaults (self finalized_bare) = build_defaults c
       /\ (forall nm,
             defaults (self finalized_bare) !! nm
             = match cargo_defaults c !! nm with
               | Some v => Some v
               | None =>
                   match inputs_outputs c !! nm with
                   | Some sch =>
                       if negb (is_none (default sch)) && negb (is_unresolved (default sch))
                       then Some (default sch) else None
                   | None => None
                   end
               end)
       /\ (forall nm v, p !! nm = Some v -> params (self finalized_bare) !! nm = Some v)
       /\ (forall nm, p !! nm = None ->
                      params (self finalized_bare) !! nm
                      = defaults (self finalized_bare) !! nm).
Proof.
  split; [reflexivity|]. split; [vm_compute; reflexivity|].
  apply (finalize_merges_defaults sample_env None None None None 0
           (fresh_state (built bare_args)) finalized_bare).
  - reflexivity.
  - vm_compute. reflexivity.
Defined.

(** The defaults merge on the sample cab: [mode] has the schema
    default [7], [verbose] comes from the cab's own defaults, the
    required [src] and [dst] have no default. *)
Example defaults_merge_example :
  params (self finalized_first) !! "mode" = Some (VInt 7)
  /\ params (self finalized_bare) !! "mode" = Some (VInt 3)
  /\ params (self finalized_bare) !! "verbose" = Some (VBool false)
  /\ params (self finalized_bare) !! "src" = None.
Proof. repeat split; vm_compute; reflexivity. Qed.

(** ** The cache of instantiated cabs *)

Lemma bind_cab_success env cfg st st1 :
  bind_cab env cfg st = (inr tt, st1) ->
  cargo (self st1) = Some (length (heap st))
  /\ exists c, heap st1 = heap st ++ [c].
Proof.
  unfold bind_cab. unfold bind at 1, get_self at 1. unfold bind at 1, get_state at 1.
  destruct (cached_cab st (self st)) as [cached|].
  - destruct (heap st !! cached) as [c|]; [|discriminate].
    unfold bind, alloc, modify_self. simpl. intros [= <-]. simpl. eauto.
  - destruct (cab (self st)) as [task|]; [|discriminate].
    destruct (cabs cfg !! task) as [definition|]; [|discriminate].
    destruct (Cab_init env definition) as [e|obj]; [discriminate|].
    unfold bind, alloc, modify_self, cache_cab. simpl. intros [= <-]. simpl. eauto.
Qed.

Lemma finalize_cab_success env cfg log logopts fq nesting st st' :
  finalized (self st) = false ->
  recipe_truthy (self st) = false ->
  finalize env cfg log logopts fq nesting st = (inr tt, st') ->
  cargo (self st') = Some (length (heap st))
  /\ length (heap st') = S (length (heap st))
  /\ (forall i, i < length (heap st) -> heap st' !! i = heap st !! i).
Proof.
  intros Hnot Hrec H.
  apply finalize_success in H as (st1 & ref & c0 & p & c1 & H); [|exact Hnot].
  cbv zeta in H.
  destruct H as (Hbind & Hcargo & Hheap & _ & _ & Hself & Hh & _ & _).
  replace (recipe_truthy (self (finalize_entry (effective_config env cfg) fq st)))
    with false in Hbind by (rewrite <- Hrec; by destruct fq).
  apply bind_cab_success in Hbind as (Hc & c & Hh1). simpl in Hc, Hh1.
  rewrite Hcargo in Hc. injection Hc as ->.
  split; [rewrite Hself; exact Hcargo|].
  split.
  - rewrite Hh, !length_insert, Hh1, length_app. simpl. lia.
  - intros i Hi. rewrite Hh, !list_lookup_insert_ne by lia.
    rewrite Hh1. by apply lookup_app_l.
Qed.

(** The object a successful [bind_cab] binds: a copy of the cached
    object, or the newly built cab, which it also puts in the cache. *)
Lemma bind_cab_bound env cfg st st1 :
  bind_cab env cfg st = (inr tt, st1) ->
  exists c,
    self st1 = set_cargo (Some (length (heap st))) (self st)
    /\ heap st1 = heap st ++ [c]
    /\ ((exists cached,
            cached_cab st (self st) = Some cached /\ heap st !! cached = Some c
            /\ _instantiated_cabs st1 = _instantiated_cabs st)
        \/ (exists task definition obj,
               cab (self st) = Some task /\ _instantiated_cabs st !! task = None
               /\ cabs cfg !! task = Some definition
               /\ Cab_init env definition = inr obj
               /\ c = with_ctype CabType obj
               /\ _instantiated_cabs st1
                  = <[task := length (heap st)]> (_instantiated_cabs st))).
Proof.
  unfold bind_cab. unfold bind at 1, get_self at 1. unfold bind at 1, get_state at 1.
  destruct (cached_cab st (self st)) as [cached|] eqn:Hc.
  - destruct (heap st !! cached) as [c|] eqn:Hh; [|discriminate].
    unfold bind, alloc, modify_self. simpl. intros [= <-]. simpl.
    exists c. split; [reflexivity|]. split; [reflexivity|]. left. eauto.
  - destruct (cab (self st)) as [task|] eqn:Hcab; [|discriminate].
    destruct (cabs cfg !! task) as [definition|] eqn:Hdef; [|discriminate].
    destruct (Cab_init env definition) as [e|obj] eqn:Hinit; [discriminate|].
    unfold bind, alloc, modify_self, cache_cab. simpl. intros [= <-]. simpl.
    exists (with_ctype CabType obj). split; [reflexivity|]. split; [reflexivity|].
    right. exists task, definition, obj.
    unfold cached_cab in Hc. rewrite Hcab in Hc. auto 10.
Qed.

(** A successful [finalize] of a cab step whose cab is in the cache:
    the object it binds is a copy of the cached one, named after the
    step and finalized; the cached object stays as it is. *)
Lemma finalize_cab_copy env cfg log logopts fq nesting task cached original st st' :
  finalized (self st) = false ->
  recipe_truthy (self st) = false ->
  cab (self st) = Some task ->
  _instantiated_cabs st !! task = Some cached ->
  heap st !! cached = Some original ->
  finalize env cfg log logopts fq nesting st = (inr tt, st') ->
  exists c,
    heap st' !! length (heap st) = Some c
    /\ heap st' !! cached = Some original
    /\ cargo_finalize env (set_cargo_name (name (self st)) original)
         (effective_config env cfg) (chosen_logger env log (self st')) logopts
         (fqname (self st')) nesting = inr c.
Proof.
  intros Hnot Hrec Hcab Hcache Hheap H.
  apply finalize_success in H as (st1 & ref & c0 & p & c1 & H); [|exact Hnot].
  cbv zeta in H.
  destruct H as (Hbind & Hcargo & Hc0 & _ & Hfin & Hself & Hh & _ & _).
  replace (recipe_truthy (self (finalize_entry (effective_config env cfg) fq st)))
    with false in Hbind by (rewrite <- Hrec; by destruct fq).
  apply bind_cab_bound in Hbind as (c & Hs1 & Hh1 & Hcase).
  cbn [heap _instantiated_cabs finalize_entry] in Hs1, Hh1, Hcase.
  assert (Hentry : cached_cab (finalize_entry (effective_config env cfg) fq st)
                     (self (finalize_entry (effective_config env cfg) fq st))
                   = Some cached).
  { unfold cached_cab.
    replace (cab (self (finalize_entry (effective_config env cfg) fq st)))
      with (cab (self st)) by (by destruct fq).
    rewrite Hcab. exact Hcache. }
  assert (Hname : name (self st1) = name (self st)) by (rewrite Hs1; by destruct fq).
  assert (Hlt : cached < length (heap st)) by (eapply lookup_lt_Some; eassumption).
  rewrite Hs1 in Hcargo. cbn in Hcargo. injection Hcargo as <-.
  destruct Hcase as [(cached' & Hc' & Hcopy & _)|(task' & d & obj & Ht & Hnone & _)].
  - rewrite Hentry in Hc'. injection Hc' as <-.
    rewrite Hheap in Hcopy. injection Hcopy as <-.
    rewrite Hh1, list_lookup_middle in Hc0 by reflexivity. injection Hc0 as <-.
    exists c1. split; [|split].
    + rewrite Hh. apply list_lookup_insert_eq.
      rewrite length_insert, Hh1, length_app. simpl. lia.
    + rewrite Hh, !list_lookup_insert_ne by lia. rewrite Hh1.
      by apply lookup_app_l_Some.
    + rewrite Hname in Hfin.
      replace (chosen_logger env log (self st')) with (chosen_logger env log (self st1))
        by (rewrite Hself; reflexivity).
      replace (fqname (self st')) with (fqname (self st1))
        by (rewrite Hself; reflexivity).
      exact Hfin.
  - exfalso.
    replace (cab (self (finalize_entry (effective_config env cfg) fq st)))
      with (cab (self st)) in Ht by (by destruct fq).
    rewrite Hcab in Ht. injection Ht as <-. congruence.
Qed.

(** The entry of the cache for its cab after a successful [finalize]
    of a cab step: an existing object; the cargo of the step itself
    when the cab was not in the cache before. *)
Lemma finalize_cab_cached env cfg log logopts fq nesting task st st' :
  finalized (self st) = false ->
  recipe_truthy (self st) = false ->
  cab (self st) = Some task ->
  finalize env cfg log logopts fq nesting st = (inr tt, st') ->
  exists cached,
    _instantiated_cabs st' !! task = Some cached
    /\ cached < length (heap st')
    /\ (_instantiated_cabs st !! task = None -> cargo (self st') = Some cached).
Proof.
  intros Hnot Hrec Hcab H.
  apply finalize_success in H as (st1 & ref & c0 & p & c1 & H); [|exact Hnot].
  cbv zeta in H.
  destruct H as (Hbind & Hcargo & _ & _ & _ & Hself & Hh & Hcache & _).
  replace (recipe_truthy (self (finalize_entry (effective_config env cfg) fq st)))
    with false in Hbind by (rewrite <- Hrec; by destruct fq).
  apply bind_cab_bound in Hbind as (c & Hs1 & Hh1 & Hcase).
  cbn [heap _instantiated_cabs finalize_entry] in Hs1, Hh1, Hcase.
  assert (Hlen : length (heap st') = S (length (heap st))).
  { rewrite Hh, !length_insert, Hh1, length_app. simpl. lia. }
  assert (Hc' : cargo (self st') = Some (length (heap st))).
  { rewrite Hself. cbn. rewrite Hs1. reflexivity. }
  destruct Hcase as [(cached & Hc & Hcopy & Heq)|(task' & d & obj & Ht & Hnone & _ & _ & _ & Heq)].
  - exists cached. unfold cached_cab in Hc.
    replace (cab (self (finalize_entry (effective_config env cfg) fq st)))
      with (cab (self st)) in Hc by (by destruct fq).
    rewrite Hcab in Hc. cbn in Hc.
    split; [rewrite Hcache, Heq; exact Hc|].
    split; [apply lookup_lt_Some in Hcopy; lia|].
    intros Hnone. congruence.
  - replace (cab (self (finalize_entry (effective_config env cfg) fq st)))
      with (cab (self st)) in Ht by (by destruct fq).
    rewrite Hcab in Ht. injection Ht as <-.
    exists (length (heap st)).
    split; [rewrite Hcache, Heq; apply lookup_insert_eq|].
    split; [lia|]. intros _. exact Hc'.
Qed.

(** C7: two steps on the same cab, the second finalized after the
    first in the same process (cargo objects are not freed and the
    entry of the cache for the cab is not replaced in between), hold
    different cargo objects, both alive.  The cargo of the second is a
    copy of the cached object, named after the second step and
    finalized, and the cached object stays as it is; the cached object
    is the cargo of the first step itself when the first step found
    the cache without the cab.  Assigning a name to the cargo of one
    step leaves the cargo of the other as it is. *)
Theorem cab_cargo_independent env cfg1 log1 logopts1 fq1 nesting1
        cfg2 log2 logopts2 fq2 nesting2 task st st1 st' st2 :
  cab (self st) = Some task -> cab (self st') = Some task ->
  recipe_truthy (self st) = false -> recipe_truthy (self st') = false ->
  finalized (self st) = false -> finalized (self st') = false ->
  finalize env cfg1 log1 logopts1 fq1 nesting1 st = (inr tt, st1) ->
  _instantiated_cabs st' !! task = _instantiated_cabs st1 !! task ->
  length (heap st1) <= length (heap st') ->
  finalize env cfg2 log2 logopts2 fq2 nesting2 st' = (inr tt, st2) ->
  exists r1 r2 c1 c2 cached original,
    cargo (self st1) = Some r1 /\ cargo (self st2) = Some r2
    /\ r1 <> r2
    /\ heap st2 !! r1 = Some c1 /\ heap st2 !! r2 = Some c2
    /\ _instantiated_cabs st1 !! task = Some cached
    /\ (_instantiated_cabs st !! task = None -> cached = r1)
    /\ cached <> r2
    /\ heap st' !! cached = Some original
    /\ heap st2 !! cached = Some original
    /\ cargo_finalize env (set_cargo_name (name (self st')) original)
         (effective_config env cfg2) (chosen_logger env log2 (self st2)) logopts2
         (fqname (self st2)) nesting2 = inr c2
    /\ forall new_name,
         assign_cargo_name r2 new_name (heap st2) !! r1 = Some c1
         /\ assign_cargo_name r2 new_name (heap st2) !! r2
            = Some (set_cargo_name new_name c2)
         /\ assign_cargo_name r1 new_name (heap st2) !! r2 = Some c2
         /\ assign_cargo_name r1 new_name (heap st2) !! r1
            = Some (set_cargo_name new_name c1).
Proof.
  intros Ht1 Ht2 Hr1 Hr2 Hf1 Hf2 H1 Hkept Hgrow H2.
  destruct (finalize_cab_cached _ _ _ _ _ _ _ _ _ Hf1 Hr1 Ht1 H1)
    as (cached & Hcached & Hlt & Hmiss).
  destruct (lookup_lt_is_Some_2 (heap st') cached) as [original Horig]; [lia|].
  rewrite Hcached in Hkept.
  destruct (finalize_cab_copy _ _ _ _ _ _ _ _ _ _ _ Hf2 Hr2 Ht2 Hkept Horig H2)
    as (c2 & Hg2 & Hkeep & Hcopy).
  apply finalize_cab_success in H1 as (Hc1 & Hl1 & Hk1); [|exact Hf1|exact Hr1].
  apply finalize_cab_success in H2 as (Hc2 & Hl2 & Hk2); [|exact Hf2|exact Hr2].
  destruct (lookup_lt_is_Some_2 (heap st2) (length (heap st))) as [c1 Hg1]; [lia|].
  exists (length (heap st)), (length (heap st')), c1, c2, cached, original.
  split; [exact Hc1|]. split; [exact Hc2|]. split; [lia|].
  split; [exact Hg1|]. split; [exact Hg2|]. split; [exact Hcached|].
  split; [intros Hnone; specialize (Hmiss Hnone); congruence|].
  split; [lia|]. split; [exact Horig|]. split; [exact Hkeep|].
  split; [exact Hcopy|].
  intros new_name. unfold assign_cargo_name. repeat split.
  - rewrite list_lookup_alter_ne by lia. exact Hg1.
  - rewrite list_lookup_alter_eq, Hg2. reflexivity.
  - rewrite list_lookup_alter_ne by lia. exact Hg2.
  - rewrite list_lookup_alter_eq, Hg1. reflexivity.
Qed.

Lemma cab_cargo_independent_witness :
  exists r1 r2 c1 c2 cached original,
    cargo (self finalized_first) = Some r1 /\ cargo (self finalized_second) = Some r2
    /\ r1 <> r2
    /\ heap finalized_second !! r1 = Some c1 /\ heap finalized_second !! r2 = Some c2
    /\ _instantiated_cabs finalized_first !! "copy" = Some cached
    /\ (_instantiated_cabs (fresh_state first_copy) !! "copy" = None -> cached = r1)
    /\ cached <> r2
    /\ heap (with_self second_copy finalized_first) !! cached = Some original
    /\ heap finalized_second !! cached = Some original
    /\ cargo_finalize sample_env
         (set_cargo_name (name (self (with_self second_copy finalized_first))) original)
         (effective_config sample_env None)
         (chosen_logger sample_env None (self finalized_second)) None
         (fqname (self finalized_second)) 0 = inr c2
    /\ forall new_name,
         assign_cargo_name r2 new_name (heap finalized_second) !! r1 = Some c1
         /\ assign_cargo_name r2 new_name (heap finalized_second) !! r2
            = Some (set_cargo_name new_name c2)
         /\ assign_cargo_name r1 new_name (heap finalized_second) !! r2 = Some c2
         /\ assign_cargo_name r1 new_name (heap finalized_second) !! r1
            = Some (set_cargo_name new_name c1).
Proof.
  apply (cab_cargo_independent sample_env None None None None 0 None None None None 0
           "copy" (fresh_state first_copy) finalized_first
           (with_self second_copy finalized_first) finalized_second);
    first [ vm_compute; reflexivity | vm_compute; lia ].
Defined.

(** On the sample the first step holds the cached object itself and
    the second a copy of it, each under its own name; but for the name
    the copy is the cached object. *)
Example cab_cache_example :
  heap finalized_second !! 1
  = Some (set_cargo_name "second" (set_cargo_name "first" copy_cargo))
  /\ heap finalized_second !! 0 = heap finalized_first !! 0
  /\ _instantiated_cabs finalized_second = {[ "copy" := 0 ]}
  /\ cargo (self finalized_first) = Some 0
  /\ cargo (self finalized_second) = Some 1
  /\ cargo_name <$> heap finalized_second !! 0 = Some "first"
  /\ cargo_name <$> heap finalized_second !! 1 = Some "second".
Proof.
  repeat (split; [vm_compute; reflexivity|]). vm_compute. reflexivity.
Qed.

(** ** Prevalidation *)

(** C10: once the cargo is bound and its prevalidation has returned
    the map [p], [prevalidate] stores [p] as the validated parameters;
    it raises [StepValidationError] with the quoted names of the
    invalid parameters when there are any, and returns [p] otherwise.
    Neither [skip] nor its preset value is consulted. *)
Theorem prevalidate_outcome env subst root st st1 ref c p :
  finalize env None None None None 0 st = (inr tt, st1) ->
  cargo (self st1) = Some ref ->
  heap st1 !! ref = Some c ->
  cargo_prevalidate env c (params (self st1)) subst root = inr p ->
  prevalidate env subst root st
  = (if nonempty (names_where is_error p)
     then inl (StepValidationError
                 ("step '" +:+ name (self st1) +:+ "': " +:+ cargo_name c +:+
                  " has the following invalid parameters: " +:+
                  join_quote (names_where is_error p)) None)
     else inr p,
     prevalidated st1 c p)
  /\ validated_params (self (prevalidate env subst root st).2) = Some p.
Proof.
  intros Hfin Hcargo Hheap Hpre.
  assert (H : prevalidate env subst root st
              = (if nonempty (names_where is_error p)
                 then inl (StepValidationError
                             ("step '" +:+ name (self st1) +:+ "': " +:+ cargo_name c +:+
                              " has the following invalid parameters: " +:+
                              join_quote (names_where is_error p)) None)
                 else inr p,
                 prevalidated st1 c p)).
  { unfold prevalidate.
    rewrite (bind_eq_success _ _ _ _ _ Hfin).
    unfold bind at 1, get_self at 1.
    rewrite (bind_eq_success _ _ _ _ _ (get_cargo_eq _ _ _ Hcargo Hheap)).
    cbn [fst snd]. rewrite Hpre.
    unfold bind, lift, ret, modify_self, emit, get_self, raise. cbn.
    unfold invalid_params. cbn.
    destruct (nonempty (names_where is_error p)); reflexivity. }
  split; [exact H|]. rewrite H. reflexivity.
Qed.

Lemma prevalidate_outcome_witness :
  prevalidate strict_env None true (fresh_state skipping_copy)
  = (if nonempty (names_where is_error prechecked_skipping)
     then inl (StepValidationError
                 ("step '" +:+ name (self finalized_skipping) +:+ "': " +:+
                  cargo_name (set_cargo_name "s1" copy_cargo) +:+
                  " has the following invalid parameters: " +:+
                  join_quote (names_where is_error prechecked_skipping)) None)
     else inr prechecked_skipping,
     prevalidated finalized_skipping (set_cargo_name "s1" copy_cargo) prechecked_skipping)
  /\ validated_params (self (prevalidate strict_env None true (fresh_state skipping_copy)).2)
     = Some prechecked_skipping.
Proof.
  apply (prevalidate_outcome strict_env None true (fresh_state skipping_copy)
           finalized_skipping 0 (set_cargo_name "s1" copy_cargo) prechecked_skipping);
    vm_compute; reflexivity.
Defined.

(** On the sample, a step whose [skip] is ["true"] still fails in
    prevalidation. *)
Example prevalidate_ignores_skip_example :
  _skip skipping_copy = Some true
  /\ (prevalidate strict_env None true (fresh_state skipping_copy)).1
     = inl (StepValidationError
              "step 's1': s1 has the following invalid parameters: 'src'" None).
Proof. split; vm_compute; reflexivity. Qed.

Lemma append_cons ch (a b : string) : String ch a +:+ b = String ch (a +:+ b).
Proof. reflexivity. Qed.

Lemma append_assoc (a b c : string) : (a +:+ b) +:+ c = a +:+ b +:+ c.
Proof.
  induction a as [|ch a IH]; [reflexivity|].
  rewrite !append_cons. by f_equal.
Qed.

Lemma append_empty_r (a : string) : a +:+ "" = a.
Proof.
  induction a as [|ch a IH]; [reflexivity|].
  rewrite append_cons. by f_equal.
Qed.

(** Every name given to [join_quote] is in its result, quoted. *)
Lemma join_quote_names nm names :
  In nm names ->
  exists pre post, join_quote names = pre +:+ ("'" +:+ nm +:+ "'") +:+ post.
Proof.
  induction names as [|n rest IH]; [intros []|].
  intros [->|Hin].
  - exists "". destruct rest as [|n2 rest].
    + exists "". change (join_quote [nm]) with ("'" +:+ nm +:+ "'").
      change ("" +:+ ("'" +:+ nm +:+ "'") +:+ "") with (("'" +:+ nm +:+ "'") +:+ "").
      by rewrite append_empty_r.
    + exists (", " +:+ join_quote (n2 :: rest)).
      change (join_quote (nm :: n2 :: rest))
        with ("'" +:+ nm +:+ "'" +:+ ", " +:+ join_quote (n2 :: rest)).
      change ("" +:+ ("'" +:+ nm +:+ "'") +:+ ", " +:+ join_quote (n2 :: rest))
        with (("'" +:+ nm +:+ "'") +:+ ", " +:+ join_quote (n2 :: rest)).
      by rewrite !append_assoc.
  - destruct (IH Hin) as (pre & post & Heq).
    destruct rest as [|n2 rest]; [destruct Hin|].
    exists ("'" +:+ n +:+ "', " +:+ pre), post.
    change (join_quote (n :: n2 :: rest))
      with ("'" +:+ n +:+ "', " +:+ join_quote (n2 :: rest)).
    rewrite Heq. by rewrite !append_assoc.
Qed.

(** ** The skip policy *)

#[local] Instance same_skip_evaluations_preorder : PreOrder same_skip_evaluations.
Proof.
  split; [intros st; reflexivity|].
  intros st1 st2 st3 H12 H23. unfold same_skip_evaluations in *. congruence.
Qed.







(** What [evaluate_skip] leaves of the state: everything but the
    events, to which it adds at most its own call of the engine. *)
Lemma evaluate_skip_state env subst st :
  let st' := (evaluate_skip env subst st).2 in
  self st' = self st /\ heap st' = heap st
  /\ _instantiated_cabs st' = _instantiated_cabs st
  /\ trace st' = trace st ++
                 match _skip (self st), subst with
                 | None, Some _ => [EvaluateSkip (skip_value (self st))]
                 | _, _ => []
                 end.
Proof.
  unfold evaluate_skip, bind, get_self.
  destruct (_skip (self st)) as [b|]; simpl; [by rewrite app_nil_r|].
  destruct subst as [ns|]; simpl; [|by rewrite app_nil_r].
  destruct (evaluate_and_substitute _ _ _ _ _) as [e|d]; simpl; [done|].
  destruct (d !! "skip"); done.
Qed.



(** A run in which the step is being skipped calls no runner. *)
Lemma run_skipped_no_dispatch env subst batch parent_log st st0 skip_now st1 :
  ensure_prevalidated env st = (inr tt, st0) ->
  evaluate_skip env subst st0 = (inr skip_now, st1) ->
  truthy skip_now = true ->
  runner_calls (trace (run env subst batch parent_log st).2) = runner_calls (trace st).
Proof.
  intros Hens Hev Hskip.
  pose proof (ensure_prevalidated_quiet env st) as Hq0.
  rewrite Hens in Hq0. unfold same_runner_calls in Hq0. simpl in Hq0.
  pose proof (evaluate_skip_quiet env subst st0) as Hq1.
  rewrite Hev in Hq1. unfold same_runner_calls in Hq1. simpl in Hq1.
  unfold run.
  rewrite (bind_eq_success _ _ _ _ _ Hens).
  rewrite (bind_eq_success _ _ _ _ _ Hev).
  rewrite <- Hq0, <- Hq1.
  set (rest := bind get_self _).
  assert (Hrest : preserves same_runner_calls rest).
  { subst rest.
    repeat first
      [ apply validate_step_inputs_quiet
      | apply validate_step_outputs_quiet
      | apply dispatch_skipped_quiet; exact Hskip
      | preserves_step; cbn beta iota ]. }
  apply Hrest.
Qed.





(** On the sample: the literal ["true"] skips without asking the
    engine, although a namespace is at hand; the formula is evaluated
    by the engine once a namespace is passed, and the engine's answer
    is the skip value of that run. *)
Example skip_examples :
  (evaluate_skip sample_env (Some sample_ns) deferred_after_run).1 = inr (VBool true)
  /\ skip_evaluations
    (trace (run sample_env (Some sample_ns) None None (fresh_state skipping_copy)).2)
  = []
  /\ runner_calls
       (trace (run sample_env (Some sample_ns) None None (fresh_state skipping_copy)).2)
     = []
  /\ skip_evaluations (trace deferred_after_run) = []
  /\ length (runner_calls (trace deferred_after_run)) = 1
  /\ skip_evaluations
       (trace (run sample_env (Some sample_ns) None None (fresh_state deferred_copy)).2)
     = [EvaluateSkip (VStr "{recipe.flag}")].
Proof. repeat split; vm_compute; reflexivity. Qed.

(** ** Dispatch *)

Lemma select_backend_first_present env s c :
  select_backend env s c
  = match backend s, cargo_backend c with
    | Some b, _ => Some b
    | None, Some b => Some b
    | None, None => opts_backend (CONFIG env)
    end.
Proof. unfold select_backend. by destruct (backend s), (cargo_backend c). Qed.

(** Input validation that returns [p] and leaves nothing invalid or
    unresolved, for a step that is not skipped. *)
Lemma validate_step_inputs_clean env skip_now subst c params0 st vp p :
  truthy skip_now = false ->
  validated_params (self st) = Some vp ->
  validate_inputs env c params0 skip_now subst = inr p ->
  names_where is_error (p ∪ vp) = [] ->
  names_where is_unresolved (p ∪ vp) = [] ->
  exists st2,
    validate_step_inputs env skip_now subst c params0 st
    = (inr (p, true, set_current p <$> subst), st2)
    /\ self st2 = set_validated_params (Some (p ∪ vp)) (self st)
    /\ runner_calls (trace st2) = runner_calls (trace st).
Proof.
  intros Hskip Hvp Hval Herr Hunr.
  pose proof (validate_step_inputs_quiet env skip_now subst c params0 st) as Hq.
  unfold same_runner_calls in Hq.
  destruct (validate_step_inputs env skip_now subst c params0 st) as [r st2] eqn:E.
  simpl in Hq. exists st2.
  unfold validate_step_inputs in E. rewrite Hval, Hskip in E.
  unfold bind, get_self, emit, ret, update_validated, modify_self, lift_exn, raise in E.
  cbn in E. rewrite Hvp in E. cbn in E.
  unfold invalid_params, unresolved_params in E.
  destruct subst as [ns|]; cbn in E; rewrite Herr, Hunr in E; cbn in E;
    injection E as <- <-; repeat split; assumption.
Qed.

(** C8: a run that is not skipped, on a step whose cargo is a cab and
    whose input validation returns [p] leaving no parameter invalid or
    unresolved, calls the runner of the cab exactly once, with [p] and
    with the first present of the backend of the step, the backend of
    the cargo and the default backend of the configuration. *)
Theorem run_dispatches_cab_once env subst batch parent_log st st0 skip_now st1 vp ref c p :
  ensure_prevalidated env st = (inr tt, st0) ->
  evaluate_skip env subst st0 = (inr skip_now, st1) ->
  truthy skip_now = false ->
  validated_params (self st0) = Some vp ->
  cargo (self st0) = Some ref ->
  heap st0 !! ref = Some c ->
  ctype c = CabType ->
  validate_inputs env c (params (self st0) ∪ vp) skip_now subst = inr p ->
  names_where is_error (p ∪ vp) = [] ->
  names_where is_unresolved (p ∪ vp) = [] ->
  runner_calls (trace (run env subst batch parent_log st).2)
  = runner_calls (trace st)
    ++ [RunCab p (match backend (self st0), cargo_backend c with
                  | Some b, _ => Some b
                  | None, Some b => Some b
                  | None, None => opts_backend (CONFIG env)
                  end)].
Proof.
  intros Hens Hev Hskip Hvp Hcargo Hheap Hcab Hval Herr Hunr.
  rewrite <- select_backend_first_present.
  pose proof (ensure_prevalidated_quiet env st) as Hq0.
  rewrite Hens in Hq0. unfold same_runner_calls in Hq0. simpl in Hq0.
  pose proof (evaluate_skip_quiet env subst st0) as Hq1.
  pose proof (evaluate_skip_state env subst st0) as (Hself & Hheap1 & _ & _).
  rewrite Hev in Hq1, Hself, Hheap1. unfold same_runner_calls in Hq1. simpl in *.
  unfold run.
  rewrite (bind_eq_success _ _ _ _ _ Hens).
  rewrite (bind_eq_success _ _ _ _ _ Hev).
  unfold bind at 1, get_self at 1. rewrite Hself, Hvp.
  unfold bind at 1, ret at 1.
  rewrite (bind_eq_success _ _ _ (ref, c) st1)
    by (apply get_cargo_eq; [rewrite Hself|rewrite Hheap1]; assumption).
  cbn [fst snd].
  destruct (validate_step_inputs_clean env skip_now subst c _ st1 vp p Hskip
              ltac:(by rewrite Hself) Hval Herr Hunr) as (st2 & Hin & Hself2 & Hq2).
  rewrite (bind_eq_success _ _ _ _ _ Hin).
  unfold dispatch. unfold bind at 1, get_self at 1.
  rewrite Hskip, Hcab. cbn [negb].
  unfold bind at 1, emit at 1.
  set (st3 := {| self := self st2; heap := heap st2;
                 _instantiated_cabs := _instantiated_cabs st2;
                 trace := trace st2 ++ [RunCab p (select_backend env (self st2) c)] |}).
  assert (Hq3 : runner_calls (trace st3)
                = runner_calls (trace st)
                  ++ [RunCab p (select_backend env (self st0) c)]).
  { subst st3. cbn [trace]. rewrite runner_calls_app. cbn [is_runner_call].
    rewrite Hq2, Hq1, Hq0, Hself2, Hself. reflexivity. }
  destruct (run_cab env (self st2) c p (select_backend env (self st2) c)
              (set_current p <$> subst) batch) as [e|p2]; cbn [lift].
  - unfold bind, raise. simpl. exact Hq3.
  - unfold bind at 1, ret at 1.
    rewrite (validate_step_outputs_quiet env skip_now c p2 _ st3). exact Hq3.
Qed.

Lemma run_dispatches_cab_once_witness :
  runner_calls (trace (run sample_env None None None (fresh_state plain_copy)).2)
  = runner_calls (trace (fresh_state plain_copy))
    ++ [RunCab plain_params
          (match backend (self prevalidated_plain),
                 cargo_backend (set_cargo_name "s1" copy_cargo) with
           | Some b, _ => Some b
           | None, Some b => Some b
           | None, None => opts_backend (CONFIG sample_env)
           end)].
Proof.
  apply (run_dispatches_cab_once sample_env None None None (fresh_state plain_copy)
           prevalidated_plain (VBool false) prevalidated_plain plain_params 0
           (set_cargo_name "s1" copy_cargo) plain_params);
    vm_compute; reflexivity.
Defined.

(** On the sample the runner gets the supplied [src] and [dst], the
    defaults, and the default backend of the configuration. *)
Example run_copy_example :
  runner_calls (trace (run sample_env None None None (fresh_state plain_copy)).2)
  = [RunCab {[ "src" := VStr "a"; "dst" := VStr "b"; "mode" := VInt 7;
               "verbose" := VBool false ]} (Some "docker")]
  /\ (run sample_env None None None (fresh_state plain_copy)).1
     = inr {[ "src" := VStr "a"; "dst" := VStr "b"; "mode" := VInt 7;
              "verbose" := VBool false ]}.
Proof. split; vm_compute; reflexivity. Qed.

(** Against C8 as stated: a run that is not skipped, on a step whose
    cargo is a cab, whose input validation leaves [src] invalid and
    [dst] unresolved, raises before the dispatch; the runner is not
    called. *)
Lemma run_without_dispatch :
  _skip plain_copy = Some false
  /\ (ctype <$> heap (run lenient_env None None None (fresh_state plain_copy)).2 !! 0)
     = Some CabType
  /\ (run lenient_env None None None (fresh_state plain_copy)).1
     = inl (StepValidationError "step 's1': invalid inputs: 'src', 'dst'" None)
  /\ runner_calls (trace (run lenient_env None None None (fresh_state plain_copy)).2) = []
  /\ ~ runner_called_once lenient_env None None None (fresh_state plain_copy)
         (set_cargo_name "s1" copy_cargo).
Proof.
  split; [vm_compute; reflexivity|]. split; [vm_compute; reflexivity|].
  split; [vm_compute; reflexivity|]. split; [vm_compute; reflexivity|].
  intros [p H]. vm_compute in H. discriminate H.
Qed.

(** ** Invalid inputs and skipping *)

(** With [skip] unset or empty, inputs that validation leaves invalid
    or unresolved make the run raise [StepValidationError] with their
    quoted names, before any runner is called. *)
Lemma run_strict_raises env subst batch parent_log st st0 skip_now st1 vp ref c p :
  ensure_prevalidated env st = (inr tt, st0) ->
  evaluate_skip env subst st0 = (inr skip_now, st1) ->
  skip_truthy (self st0) = false ->
  validated_params (self st0) = Some vp ->
  cargo (self st0) = Some ref ->
  heap st0 !! ref = Some c ->
  validate_inputs env c (params (self st0) ∪ vp) skip_now subst = inr p ->
  names_where is_error (p ∪ vp) ++ names_where is_unresolved (p ∪ vp) <> [] ->
  (run env subst batch parent_log st).1
  = inl (StepValidationError
           ("step '" +:+ name (self st0) +:+ "': invalid inputs: " +:+
            join_quote (names_where is_error (p ∪ vp)
                        ++ names_where is_unresolved (p ∪ vp))) None)
  /\ runner_calls (trace (run env subst batch parent_log st).2) = runner_calls (trace st).
Proof.
  intros Hens Hev Hskip Hvp Hcargo Hheap Hval Hbad.
  pose proof (ensure_prevalidated_quiet env st) as Hq0.
  rewrite Hens in Hq0. unfold same_runner_calls in Hq0. simpl in Hq0.
  pose proof (evaluate_skip_quiet env subst st0) as Hq1.
  pose proof (evaluate_skip_state env subst st0) as (Hself & Hheap1 & _ & _).
  rewrite Hev in Hq1, Hself, Hheap1. unfold same_runner_calls in Hq1. simpl in *.
  pose proof (validate_step_inputs_quiet env skip_now subst c
                (params (self st0) ∪ vp) st1) as Hq2.
  unfold same_runner_calls in Hq2.
  assert (Hin : (validate_step_inputs env skip_now subst c
                   (params (self st0) ∪ vp) st1).1
                = inl (StepValidationError
                         ("step '" +:+ name (self st0) +:+ "': invalid inputs: " +:+
                          join_quote (names_where is_error (p ∪ vp)
                                      ++ names_where is_unresolved (p ∪ vp))) None)).
  { unfold validate_step_inputs. rewrite Hval.
    unfold bind, get_self, emit, ret, update_validated, modify_self, lift_exn, raise.
    cbn. rewrite Hself, Hvp. cbn.
    assert (Hne : nonempty (names_where is_error (p ∪ vp))
                  || nonempty (names_where is_unresolved (p ∪ vp)) = true).
    { destruct (names_where is_error (p ∪ vp)); [|reflexivity].
      destruct (names_where is_unresolved (p ∪ vp)); [|reflexivity].
      by destruct Hbad. }
    destruct (negb (truthy skip_now)), subst as [ns|];
      cbn; unfold invalid_params, unresolved_params; cbn; rewrite Hne;
      change (skip_truthy (set_validated_params (Some (p ∪ vp)) (self st0)))
        with (skip_truthy (self st0));
      rewrite Hskip; reflexivity. }
  destruct (validate_step_inputs env skip_now subst c (params (self st0) ∪ vp) st1)
    as [r st2] eqn:E.
  cbn [fst snd] in Hin, Hq2. subst r.
  assert (Hrun : run env subst batch parent_log st
                 = (inl (StepValidationError
                           ("step '" +:+ name (self st0) +:+ "': invalid inputs: " +:+
                            join_quote (names_where is_error (p ∪ vp)
                                        ++ names_where is_unresolved (p ∪ vp))) None),
                    st2)).
  { unfold run.
    rewrite (bind_eq_success _ _ _ _ _ Hens).
    rewrite (bind_eq_success _ _ _ _ _ Hev).
    unfold bind at 1, get_self at 1. rewrite Hself, Hvp.
    unfold bind at 1, ret at 1.
    rewrite (bind_eq_success _ _ _ (ref, c) st1)
      by (apply get_cargo_eq; [rewrite Hself|rewrite Hheap1]; assumption).
    cbn [fst snd].
    by rewrite (bind_eq_failure _ _ _ _ _ E). }
  rewrite Hrun. cbn [fst snd].
  split; [reflexivity|]. by rewrite Hq2, Hq1, Hq0.
Qed.

(** C1: with [skip] set to the literal ["false"] the step is not
    skipped, yet a run whose input validation leaves [src] invalid and
    [dst] unresolved does not raise: the test before the raise reads
    the text of [skip] (a non-empty string) and not the skip value of
    the run, so the run logs the two warnings of a skipped step and
    then calls the runner of the cab with the invalid inputs.  The same
    happens for a deferred [skip] when no namespace is passed. *)
Theorem run_unskipped_invalid_inputs_dispatch :
  (_skip unskipped_copy = Some false
   /\ skip_truthy unskipped_copy = true
   /\ (run lenient_env None None None (fresh_state unskipped_copy)).1
      = inr rejected_params
   /\ runner_calls (trace (run lenient_env None None None (fresh_state unskipped_copy)).2)
      = [RunCab rejected_params (Some "docker")]
   /\ warnings (trace (run lenient_env None None None (fresh_state unskipped_copy)).2)
      = [Log WARNING "invalid inputs: 'src', 'dst'";
         Log WARNING "since the step was skipped, this is not fatal"])
  /\ (_skip deferred_copy = None
      /\ (run lenient_env None None None (fresh_state deferred_copy)).1
         = inr rejected_params
      /\ runner_calls (trace (run lenient_env None None None (fresh_state deferred_copy)).2)
         = [RunCab rejected_params (Some "docker")]).
Proof. repeat split; vm_compute; reflexivity. Qed.

(** The same inputs with [skip] unset raise, and with [skip] set to
    ["true"] give two warnings and no call of the runner. *)
Example run_invalid_inputs_examples :
  (run lenient_env None None None (fresh_state plain_copy)).1
  = inl (StepValidationError "step 's1': invalid inputs: 'src', 'dst'" None)
  /\ runner_calls (trace (run lenient_env None None None (fresh_state plain_copy)).2) = []
  /\ (run lenient_env None None None (fresh_state skipping_copy)).1 = inr rejected_params
  /\ runner_calls (trace (run lenient_env None None None (fresh_state skipping_copy)).2)
     = []
  /\ warnings (trace (run lenient_env None None None (fresh_state skipping_copy)).2)
     = [Log WARNING "invalid inputs: 'src', 'dst'";
        Log WARNING "since the step was skipped, this is not fatal"].
Proof. repeat split; vm_compute; reflexivity. Qed.

(** ** What the resolver rejects *)

Lemma split_dots_leading_dot key : split_dots (String "." key) = "" :: split_dots key.
Proof. reflexivity. Qed.

(** A key with an empty first segment is rejected when there is no
    current section or when the current section is empty; an empty
    segment before the last one is rejected; a segment missing from the
    section being walked is rejected with a message that has the
    segment and the key. *)
Lemma resolver_rejections :
  (forall key base context,
      hd "" (split_dots key) = "" ->
      resolve_dotted_reference key base None context
      = inl (NameError (context +:+ ": leading '.' not permitted here"))
      /\ resolve_dotted_reference key base (Some (Dict ∅)) context
         = inl (NameError (context +:+ ": leading '.' not permitted here")))
  /\ (forall context key section rest,
         walk context key section ("" :: rest)
         = inl (NameError (context +:+ ": '..' not permitted")))
  /\ (forall context key entries element rest,
         element <> "" -> entries !! element = None ->
         walk context key (Dict entries) (element :: rest)
         = inl (NameError (context +:+ ": '" +:+ element +:+ "' in '" +:+ key
                           +:+ "' is not a valid config section")))
  /\ resolve_dotted_reference ".." (Dict ∅) (Some (Dict {[ "x" := Num 5 ]})) "step"
     = inl (NameError "step: '..' not permitted")
  /\ resolve_dotted_reference "a..b" (Dict {[ "a" := Dict ∅ ]}) None "step"
     = inl (NameError "step: '..' not permitted")
  /\ resolve_dotted_reference "a.b.c" (Dict {[ "a" := Dict ∅ ]}) None "step"
     = inl (NameError "step: 'b' in 'a.b.c' is not a valid config section").
Proof.
  split.
  { intros key base context H. unfold resolve_dotted_reference. rewrite H.
    split; reflexivity. }
  split; [reflexivity|].
  split.
  { intros context key entries element rest Hne Hnone. simpl.
    destruct element; [done|]. simpl. rewrite Hnone.
    rewrite bool_decide_eq_false_2; [reflexivity|]. by intros [? ?]. }
  repeat split; vm_compute; reflexivity.
Qed.

(** * Further properties *)

(** ** The resolver against nested lookup *)

Lemma is_empty_string_true s : is_empty_string s = true <-> s = "".
Proof. destruct s; simpl; split; intros; congruence. Qed.

Lemma is_empty_string_false s : is_empty_string s = false <-> s <> "".
Proof. destruct s; simpl; split; intros; congruence. Qed.

(** The loop of the resolver succeeds exactly when no walked segment
    is empty and nested lookup finds every one of them, and then it
    returns the node nested lookup reaches. *)
Lemma walk_descend context key section elements n :
  walk context key section elements = inr n
  <-> Forall (fun element => element <> "") elements
      /\ descend section elements = Some n.
Proof.
  revert section. induction elements as [|element rest IH]; intros section; simpl.
  - split; [intros [= ->]; auto|intros [_ [= ->]]; reflexivity].
  - destruct (is_empty_string element) eqn:He.
    + apply is_empty_string_true in He as ->. split; [discriminate|].
      intros [H _]. inversion H. congruence.
    + apply is_empty_string_false in He.
      destruct section as [s|z|entries]; simpl.
      * split; [destruct (substring_of element s); discriminate|intros [_ [=]]].
      * split; [discriminate|intros [_ [=]]].
      * destruct (entries !! element) as [n'|] eqn:Hl.
        -- rewrite bool_decide_eq_true_2 by eauto. rewrite IH.
           split; intros [H1 H2]; split; auto. by inversion H1.
        -- rewrite bool_decide_eq_false_2 by (by intros [? ?]).
           split; [discriminate|intros [_ [=]]].
Qed.

(** X1: the resolver succeeds exactly when the key has a section to
    start from (the base, or a non-empty current section for a key with
    a leading separator, which then needs a segment after it), no
    walked segment is empty, and nested lookup finds the walked
    segments; it then returns the node nested lookup reaches and the
    last segment of the key, which is not looked up. *)
Theorem resolve_dotted_reference_descend key base current context section varname :
  resolve_dotted_reference key base current context = inr (section, varname)
  <-> exists start elements,
        walked key base current = Some (start, elements)
        /\ (hd "" (split_dots key) = "" ->
            node_truthy start = true /\ tl (split_dots key) <> [])
        /\ Forall (fun element => element <> "") elements
        /\ descend start elements = Some section
        /\ varname = List.last (split_dots key) "".
Proof.
  unfold resolve_dotted_reference, walked, resolve_path.
  pose proof (split_dots_nonempty key) as Hne.
  destruct (split_dots key) as [|seg segs] eqn:Hpath; [done|]. clear Hne.
  cbn [hd tl].
  destruct (is_empty_string seg) eqn:Hseg; cbn [negb].
  - apply is_empty_string_true in Hseg as ->.
    destruct current as [cur|].
    + destruct (node_truthy cur) eqn:Ht.
      * destruct segs as [|seg2 segs].
        -- split; [discriminate|].
           intros (start & elements & _ & H & _). by destruct (H eq_refl).
        -- destruct (walk context key cur (removelast (seg2 :: segs)))
             as [e|n] eqn:Hw.
           ++ split; [discriminate|].
              intros (start & elements & [= <- <-] & _ & Hall & Hd & _).
              assert (walk context key cur (removelast (seg2 :: segs)) = inr section)
                by (apply walk_descend; auto).
              congruence.
           ++ apply walk_descend in Hw as [Hall Hd].
              split.
              ** intros [= <- <-]. exists cur, (removelast (seg2 :: segs)).
                 repeat split; auto.
              ** intros (start & elements & [= <- <-] & _ & _ & Hd' & ->).
                 assert (Some n = Some section) as [= ->] by (rewrite <- Hd; exact Hd').
                 reflexivity.
      * split; [discriminate|].
        intros (start & elements & [= <- <-] & H & _).
        destruct (H eq_refl) as [H1 _]. congruence.
    + split; [discriminate|]. intros (start & elements & [=] & _).
  - apply is_empty_string_false in Hseg.
    destruct (walk context key base (removelast (seg :: segs))) as [e|n] eqn:Hw.
    + split; [discriminate|].
      intros (start & elements & [= <- <-] & _ & Hall & Hd & _).
      assert (walk context key base (removelast (seg :: segs)) = inr section)
        by (apply walk_descend; auto).
      congruence.
    + apply walk_descend in Hw as [Hall Hd].
      split.
      * intros [= <- <-]. exists base, (removelast (seg :: segs)).
        repeat split; auto.
      * intros (start & elements & [= <- <-] & _ & _ & Hd' & ->).
        assert (Some n = Some section) as [= ->] by (rewrite <- Hd; exact Hd').
                 reflexivity.
Qed.

Lemma prefix_dot c rest : String.prefix "." (String c rest) = Ascii.eqb c ".".
Proof.
  destruct rest; cbn [String.prefix];
    (destruct (ascii_dec "." c) as [<-|Hne];
     [reflexivity|symmetry; apply Ascii.eqb_neq; congruence]).
Qed.

Lemma substring_of_dot_cons c rest :
  substring_of "." (String c rest) = Ascii.eqb c "." || substring_of "." rest.
Proof.
  change (substring_of "." (String c rest))
    with (String.prefix "." (String c rest) || substring_of "." rest).
  by rewrite prefix_dot.
Qed.

(** No segment of a split key has a separator in it. *)
Lemma split_dots_segments key :
  Forall (fun seg => substring_of "." seg = false) (split_dots key).
Proof.
  induction key as [|c rest IH]; simpl.
  - repeat constructor.
  - destruct (Ascii.eqb c ".") eqn:Hc.
    + constructor; [reflexivity|exact IH].
    + destruct (split_dots rest) as [|seg segs].
      * constructor; [|constructor]. by rewrite substring_of_dot_cons, Hc.
      * inversion IH as [|? ? Hseg Hsegs]; subst.
        constructor; [|exact Hsegs]. by rewrite substring_of_dot_cons, Hc, Hseg.
Qed.

(** A key without a separator is its own only segment. *)
Lemma split_dots_undotted key :
  substring_of "." key = false -> split_dots key = [key].
Proof.
  induction key as [|c rest IH]; [reflexivity|].
  rewrite substring_of_dot_cons. intros H.
  apply orb_false_iff in H as [Hc Hrest].
  simpl. rewrite Hc, (IH Hrest). reflexivity.
Qed.

Lemma Forall_last {A} (P : A -> Prop) (l : list A) d :
  Forall P l -> l <> [] -> P (List.last l d).
Proof.
  induction l as [|x l IH]; [done|]. intros H _.
  inversion H as [|? ? Hx Hl]; subst.
  destruct l as [|y l]; [exact Hx|]. apply IH; [exact Hl|done].
Qed.

(** The name the resolver returns is the last segment of the key. *)
Lemma resolve_dotted_reference_name key base current context section varname :
  resolve_dotted_reference key base current context = inr (section, varname) ->
  varname = List.last (split_dots key) "".
Proof.
  unfold resolve_dotted_reference, resolve_path.
  pose proof (split_dots_nonempty key) as Hne.
  destruct (split_dots key) as [|seg segs]; [done|]. cbn [hd tl].
  - destruct (negb (is_empty_string seg)).
    + destruct (walk _ _ _ _); [discriminate|]. by intros [= _ <-].
    + destruct current as [cur|]; [|discriminate].
      destruct (node_truthy cur); [|discriminate].
      destruct segs as [|seg2 segs]; [discriminate|].
      destruct (walk _ _ _ _); [discriminate|]. by intros [= _ <-].
Qed.

(** X2: a non-empty key without a separator always resolves, to the
    base itself and the key as the name; the current section is not
    consulted and the name need not exist in the base. *)
Theorem resolve_dotted_reference_undotted key base current context :
  substring_of "." key = false ->
  key <> "" ->
  resolve_dotted_reference key base current context = inr (base, key).
Proof.
  intros Hdot Hne. unfold resolve_dotted_reference, resolve_path.
  rewrite (split_dots_undotted _ Hdot). cbn [hd].
  apply is_empty_string_false in Hne. rewrite Hne. reflexivity.
Qed.

Lemma resolve_dotted_reference_undotted_witness :
  resolve_dotted_reference "copy" (Num 3) None "step" = inr (Num 3, "copy").
Proof.
  apply (resolve_dotted_reference_undotted "copy" (Num 3) None "step").
  - reflexivity.
  - discriminate.
Defined.

(** X3: whatever the key, the name the resolver returns has no
    separator in it. *)
Theorem resolve_dotted_reference_plain_name key base current context section varname :
  resolve_dotted_reference key base current context = inr (section, varname) ->
  substring_of "." varname = false.
Proof.
  intros H. apply resolve_dotted_reference_name in H as ->.
  apply (Forall_last (fun seg => substring_of "." seg = false));
    [apply split_dots_segments|apply split_dots_nonempty].
Qed.

Lemma resolve_dotted_reference_plain_name_witness :
  substring_of "." "c" = false.
Proof.
  apply (resolve_dotted_reference_plain_name "a.b.c" tree_abc None "step"
           (Dict {[ "c" := Num 1 ]}) "c").
  vm_compute. reflexivity.
Defined.

Lemma walk_errors context key section elements e :
  walk context key section elements = inl e ->
  match e with NameError _ | TypeError _ => True | _ => False end.
Proof.
  revert section. induction elements as [|element rest IH]; intros section; simpl.
  - discriminate.
  - destruct (is_empty_string element); [by intros [= <-]|].
    destruct section as [s|z|entries]; simpl.
    + destruct (substring_of element s); by intros [= <-].
    + by intros [= <-].
    + destruct (entries !! element) as [n|] eqn:Hl.
      * rewrite bool_decide_eq_true_2 by eauto. apply IH.
      * rewrite bool_decide_eq_false_2 by (by intros [? ?]). by intros [= <-].
Qed.

(** X4: the resolver fails with [NameError] or, when it walks into a
    value that is not a section, with [TypeError]; the membership test
    before each lookup keeps [KeyError] from ever escaping. *)
Theorem resolve_dotted_reference_errors key base current context e :
  resolve_dotted_reference key base current context = inl e ->
  match e with NameError _ | TypeError _ => True | _ => False end.
Proof.
  unfold resolve_dotted_reference, resolve_path.
  destruct (negb _).
  - destruct (walk _ _ _ _) eqn:Hw; [|discriminate].
    intros [= <-]. eapply walk_errors, Hw.
  - destruct current as [cur|]; [|by intros [= <-]].
    destruct (node_truthy cur); [|by intros [= <-]].
    destruct (tl (split_dots key)); [by intros [= <-]|].
    destruct (walk _ _ _ _) eqn:Hw; [|discriminate].
    intros [= <-]. eapply walk_errors, Hw.
Qed.

Lemma resolve_dotted_reference_errors_witness :
  match TypeError "argument of type 'int' is not iterable" with
  | NameError _ | TypeError _ => True
  | _ => False
  end.
Proof.
  apply (resolve_dotted_reference_errors "a.b.c" (Dict {[ "a" := Num 1 ]}) None "step").
  vm_compute. reflexivity.
Defined.

(** ** Construction, once more *)

(** X5: the constructor succeeds exactly when one of [cab] and
    [recipe] is truthy and the other is not (an empty string or an
    empty section counts as not given); the step it returns is not
    finalized and has no validated parameters, so that reading
    [invalid_params] or [unresolved_params] of it raises
    [AttributeError]. *)
Theorem new_step_succeeds_iff a :
  ((exists s, new_step a = inr s)
   <-> cab_truthy (init_fields a) = negb (recipe_truthy (init_fields a)))
  /\ (forall s, new_step a = inr s ->
                finalized s = false /\ validated_params s = None
                /\ invalid_params s
                   = inl (AttributeError "'NoneType' object has no attribute 'items'")
                /\ unresolved_params s
                   = inl (AttributeError "'NoneType' object has no attribute 'items'")).
Proof.
  unfold new_step, post_init.
  change (cab_truthy (set_fqname _ (init_fields a))) with (cab_truthy (init_fields a)).
  change (recipe_truthy (set_fqname _ (init_fields a)))
    with (recipe_truthy (init_fields a)).
  destruct (cab_truthy (init_fields a)), (recipe_truthy (init_fields a)); simpl;
    (split; [split; [intros [s H]; congruence || reflexivity
                    |intros H; try discriminate H; eauto]
            |intros s H; try discriminate H; injection H as <-; auto]).
Qed.

Lemma new_step_succeeds_iff_witness :
  finalized plain_copy = false /\ validated_params plain_copy = None
  /\ invalid_params plain_copy
     = inl (AttributeError "'NoneType' object has no attribute 'items'")
  /\ unresolved_params plain_copy
     = inl (AttributeError "'NoneType' object has no attribute 'items'").
Proof.
  apply (proj2 (new_step_succeeds_iff (copy_args "s1" None)) plain_copy).
  vm_compute. reflexivity.
Defined.

(** ** The two parts of [finalize] *)

Lemma finalize_parts env cfg log logopts fq nesting st :
  finalize env cfg log logopts fq nesting st
  = if finalized (self st) then (inr tt, st)
    else bind (bind_cargo env (effective_config env cfg))
              (fun _ => finalize_bound env (effective_config env cfg) log logopts nesting)
              (finalize_entry (effective_config env cfg) fq st).
Proof.
  unfold finalize. unfold bind at 1, get_self at 1.
  destruct (finalized (self st)); [reflexivity|].
  destruct fq; reflexivity.
Qed.

(** The binding of a cab either fails, leaving the state as it was, or
    allocates one object for the step; the cache gains at most the
    entry of the step's cab, bound to that object. *)
Lemma bind_cab_failure env cfg st e st1 :
  bind_cab env cfg st = (inl e, st1) ->
  st1 = st
  /\ match e with StepValidationError _ _ | RuntimeError _ => True | _ => False end.
Proof.
  unfold bind_cab. unfold bind at 1, get_self at 1. unfold bind at 1, get_state at 1.
  destruct (cached_cab st (self st)) as [cached|].
  - destruct (heap st !! cached) as [c|]; [discriminate|].
    by intros [= <- <-].
  - destruct (cab (self st)) as [task|]; [|by intros [= <- <-]].
    destruct (cabs cfg !! task) as [definition|]; [|by intros [= <- <-]].
    destruct (Cab_init env definition) as [e'|obj]; [by intros [= <- <-]|].
    discriminate.
Qed.

Lemma bind_cab_cache env cfg st st1 :
  bind_cab env cfg st = (inr tt, st1) ->
  trace st1 = trace st
  /\ ((exists cached, cached_cab st (self st) = Some cached
                      /\ _instantiated_cabs st1 = _instantiated_cabs st)
      \/ (exists task, cab (self st) = Some task
                       /\ _instantiated_cabs st !! task = None
                       /\ is_Some (cabs cfg !! task)
                       /\ _instantiated_cabs st1
                          = <[task := length (heap st)]> (_instantiated_cabs st))).
Proof.
  unfold bind_cab. unfold bind at 1, get_self at 1. unfold bind at 1, get_state at 1.
  destruct (cached_cab st (self st)) as [cached|] eqn:Hc.
  - destruct (heap st !! cached) as [c|]; [|discriminate].
    unfold bind, alloc, modify_self. simpl. intros [= <-]. simpl. eauto.
  - destruct (cab (self st)) as [task|] eqn:Hcab; [|discriminate].
    destruct (cabs cfg !! task) as [definition|] eqn:Hdef; [|discriminate].
    destruct (Cab_init env definition) as [e|obj]; [discriminate|].
    unfold bind, alloc, modify_self, cache_cab. simpl. intros [= <-]. simpl.
    split; [reflexivity|]. right. exists task.
    unfold cached_cab in Hc. rewrite Hcab in Hc. eauto.
Qed.

(** Case analysis on a hypothesis that holds the result of a
    computation: unfold the monad and split on what it inspects. *)
Ltac outcome_cases H :=
  unfold bind, get_self, get_state, get_cargo, lift, lift_exn, raise, ret, alloc, store,
    modify_self, cache_cab in H;
  repeat first
    [ progress cbn [self heap _instantiated_cabs trace cargo recipe params defaults
                    validated_params name fqname cab
                    set_recipe set_cargo set_params set_defaults set_config set_fqname
                    fst snd] in H
    | match type of H with
      | context [match ?x with _ => _ end] =>
          lazymatch x with
          | context [match _ with _ => _ end] => fail
          | _ => destruct x eqn:?
          end
      end ].

Lemma bind_recipe_failure env cfg st e st1 :
  bind_recipe env cfg st = (inl e, st1) ->
  cargo (self st1) = cargo (self st) /\ heap st1 = heap st
  /\ _instantiated_cabs st1 = _instantiated_cabs st /\ trace st1 = trace st
  /\ params (self st1) = params (self st) /\ defaults (self st1) = defaults (self st).
Proof.
  intros H. unfold bind_recipe in H. outcome_cases H;
    try discriminate H; injection H as <- <-; simpl; auto 10.
Qed.

Lemma bind_recipe_success env cfg st st1 :
  bind_recipe env cfg st = (inr tt, st1) ->
  _instantiated_cabs st1 = _instantiated_cabs st /\ trace st1 = trace st
  /\ params (self st1) = params (self st)
  /\ exists ref c,
       cargo (self st1) = Some ref /\ heap st1 !! ref = Some c
       /\ ctype c = RecipeType
       /\ (heap st1 = heap st
           \/ (heap st1 = heap st ++ [c] /\ ref = length (heap st))).
Proof.
  intros H. unfold bind_recipe in H. outcome_cases H;
    try discriminate H; injection H as <-; simpl;
    (split; [reflexivity|]); (split; [reflexivity|]); (split; [reflexivity|]).
  all: lazymatch goal with
       | |- exists ref c0, Some ?r = Some ref /\ (?h ++ [?x]) !! ref = Some c0 /\ _ =>
           exists r, x;
           split; [reflexivity|];
           split; [by apply list_lookup_middle|];
           split; [reflexivity|right; split; reflexivity]
       | |- exists ref0 c, Some ?r = Some ref0 /\ heap ?st0 !! ref0 = Some c /\ _ =>
           match goal with
           | Hc : ctype <$> heap st0 !! r = Some RecipeType |- _ =>
               destruct (heap st0 !! r) as [c'|] eqn:Hl; [|discriminate Hc];
               injection Hc as Hc; exists r, c'; auto
           end
       end.
Qed.

(** What the second part of [finalize] does to the state, whatever
    its outcome: it writes the object of the cargo and the parameters
    and defaults of the step, nothing else, and it raises no
    [StepValidationError]. *)
Lemma finalize_bound_outcome env cfg log logopts nesting st r st' :
  finalize_bound env cfg log logopts nesting st = (r, st') ->
  _instantiated_cabs st' = _instantiated_cabs st /\ trace st' = trace st
  /\ cargo (self st') = cargo (self st)
  /\ length (heap st') = length (heap st)
  /\ (forall i, cargo (self st) <> Some i -> heap st' !! i = heap st !! i)
  /\ match r with
     | inl (StepValidationError _ _) => False
     | inl _ => defaults (self st') = defaults (self st)
     | inr _ => True
     end.
Proof.
  intros H. unfold finalize_bound in H. outcome_cases H;
    injection H as <- <-; simpl; rewrite ?length_insert;
    repeat split; auto;
    intros i Hi; rewrite ?list_lookup_insert_ne; congruence.
Qed.

Lemma bind_cargo_entry env cfg fq st :
  bind_cargo env cfg (finalize_entry cfg fq st)
  = (if recipe_truthy (self st) then bind_recipe env cfg else bind_cab env cfg)
      (finalize_entry cfg fq st).
Proof. unfold bind_cargo, bind, get_self. by destruct fq. Qed.

(** ** Failures of [finalize] *)

(** X6: when [finalize] raises [StepValidationError], no cargo has
    been bound: the step is still not finalized, and the cargo objects,
    the cache of cabs, the events, the parameters and the defaults are
    as before, so the call can be repeated. *)
Theorem finalize_validation_error_unbound env cfg log logopts fq nesting st msg nested st' :
  finalize env cfg log logopts fq nesting st
  = (inl (StepValidationError msg nested), st') ->
  finalized (self st') = false
  /\ heap st' = heap st /\ _instantiated_cabs st' = _instantiated_cabs st
  /\ trace st' = trace st
  /\ params (self st') = params (self st) /\ defaults (self st') = defaults (self st).
Proof.
  rewrite finalize_parts. destruct (finalized (self st)) eqn:Hf; [discriminate|].
  unfold bind at 1. rewrite bind_cargo_entry.
  set (cfg' := effective_config env cfg).
  assert (Hentry : cargo (self (finalize_entry cfg' fq st)) = None).
  { unfold finalized in Hf. destruct fq; simpl; by destruct (cargo (self st)). }
  assert (Hp : params (self (finalize_entry cfg' fq st)) = params (self st)
               /\ defaults (self (finalize_entry cfg' fq st)) = defaults (self st))
    by (by destruct fq).
  destruct Hp as [Hp Hd].
  destruct (recipe_truthy (self st)).
  - destruct (bind_recipe env cfg' _) as [[e|[]] st1] eqn:Hb.
    + intros [= -> <-]. apply bind_recipe_failure in Hb as (H1 & H2 & H3 & H4 & H5 & H6).
      unfold finalized. rewrite H1, Hentry, H2, H3, H4, H5, H6.
      repeat split; assumption || reflexivity.
    + intros H. apply finalize_bound_outcome in H as (_ & _ & _ & _ & _ & []).
  - destruct (bind_cab env cfg' _) as [[e|[]] st1] eqn:Hb.
    + intros [= -> <-]. apply bind_cab_failure in Hb as [-> _].
      unfold finalized. rewrite Hentry.
      repeat split; assumption || reflexivity.
    + intros H. apply finalize_bound_outcome in H as (_ & _ & _ & _ & _ & []).
Qed.

Lemma finalize_validation_error_unbound_witness :
  finalized (self unknown_failed) = false
  /\ heap unknown_failed = heap (fresh_state unknown_step)
  /\ _instantiated_cabs unknown_failed = _instantiated_cabs (fresh_state unknown_step)
  /\ trace unknown_failed = trace (fresh_state unknown_step)
  /\ params (self unknown_failed) = params (self (fresh_state unknown_step))
  /\ defaults (self unknown_failed) = defaults (self (fresh_state unknown_step)).
Proof.
  apply (finalize_validation_error_unbound sample_env None None None None 0
           (fresh_state unknown_step) "step 's9': unknown cab move" None unknown_failed).
  vm_compute. reflexivity.
Defined.

Lemma bind_cab_fields env cfg st st1 :
  bind_cab env cfg st = (inr tt, st1) ->
  params (self st1) = params (self st) /\ defaults (self st1) = defaults (self st)
  /\ cab (self st1) = cab (self st).
Proof.
  intros H. unfold bind_cab in H. outcome_cases H;
    try discriminate H; injection H as <-; simpl; auto.
Qed.

(** X7: when a collaborator raises during the [finalize] of a cab step
    (the flattening of the parameters or the finalization of the cargo),
    the cargo is bound already: the step counts as finalized, its
    defaults have not been set, and every later [finalize] returns at
    once, leaving them unset. *)
Theorem finalize_collaborator_failure_sticks env cfg log logopts fq nesting st e st' :
  recipe_truthy (self st) = false ->
  finalize env cfg log logopts fq nesting st = (inl (Propagated e), st') ->
  finalized (self st') = true
  /\ defaults (self st') = defaults (self st)
  /\ forall cfg2 log2 logopts2 fq2 nesting2,
       finalize env cfg2 log2 logopts2 fq2 nesting2 st' = (inr tt, st').
Proof.
  intros Hrec. rewrite finalize_parts.
  destruct (finalized (self st)) eqn:Hf; [discriminate|].
  unfold bind at 1. rewrite bind_cargo_entry, Hrec.
  set (cfg' := effective_config env cfg).
  destruct (bind_cab env cfg' _) as [[e'|[]] st1] eqn:Hb.
  - intros [= -> <-]. apply bind_cab_failure in Hb as [_ []].
  - intros H. apply finalize_bound_outcome in H as (_ & _ & Hc & _ & _ & Hd).
    pose proof (bind_cab_fields _ _ _ _ Hb) as (_ & Hd1 & _).
    apply bind_cab_success in Hb as [Hc1 _].
    assert (Hfin : finalized (self st') = true)
      by (unfold finalized; by rewrite Hc, Hc1).
    split; [exact Hfin|]. split.
    + rewrite Hd, Hd1. by destruct fq.
    + intros. by apply finalize_when_finalized.
Qed.

Lemma finalize_collaborator_failure_sticks_witness :
  finalized (self half_finalized) = true
  /\ defaults (self half_finalized) = defaults (self (fresh_state plain_copy))
  /\ forall cfg2 log2 logopts2 fq2 nesting2,
       finalize broken_env cfg2 log2 logopts2 fq2 nesting2 half_finalized
       = (inr tt, half_finalized).
Proof.
  apply (finalize_collaborator_failure_sticks broken_env None None None None 0
           (fresh_state plain_copy)
           {| cls := OtherException; message := "no such image"; logged := false |}
           half_finalized).
  - vm_compute. reflexivity.
  - vm_compute. reflexivity.
Defined.
(** ** The cache and the heap under [finalize] *)

(** X8: whatever its outcome, [finalize] keeps every entry of the cache
    of cabs as it is; the only entry it can add is for the cab of the
    step, a cab of the configuration, and it is bound to the very
    object that is the cargo of the step. *)
Theorem finalize_cache env cfg log logopts fq nesting st :
  (forall k ref,
      _instantiated_cabs st !! k = Some ref ->
      _instantiated_cabs (finalize env cfg log logopts fq nesting st).2 !! k = Some ref)
  /\ (forall k ref,
         _instantiated_cabs (finalize env cfg log logopts fq nesting st).2 !! k = Some ref ->
         _instantiated_cabs st !! k = None ->
         cab (self st) = Some k
         /\ cargo (self (finalize env cfg log logopts fq nesting st).2) = Some ref
         /\ is_Some (cabs (effective_config env cfg) !! k)).
Proof.
  rewrite finalize_parts.
  destruct (finalized (self st)) eqn:Hf;
    [split; [auto|intros k ref H1 H2; simpl in H1; congruence]|].
  unfold bind at 1 2 3. rewrite bind_cargo_entry.
  set (cfg' := effective_config env cfg).
  assert (Hentry : _instantiated_cabs (finalize_entry cfg' fq st) = _instantiated_cabs st)
    by reflexivity.
  destruct (recipe_truthy (self st)).
  - destruct (bind_recipe env cfg' _) as [[e|[]] st1] eqn:Hb.
    + apply bind_recipe_failure in Hb as (_ & _ & H3 & _).
      cbn [fst snd]. rewrite H3, Hentry. split; [auto|congruence].
    + apply bind_recipe_success in Hb as (H3 & _).
      destruct (finalize_bound env cfg' log logopts nesting st1) as [r st'] eqn:Hfb.
      apply finalize_bound_outcome in Hfb as (H4 & _). cbn [fst snd].
      rewrite H4, H3, Hentry. split; [auto|congruence].
  - destruct (bind_cab env cfg' _) as [[e|[]] st1] eqn:Hb.
    + apply bind_cab_failure in Hb as [-> _]. cbn [fst snd]. rewrite Hentry.
      split; [auto|congruence].
    + pose proof (bind_cab_cache _ _ _ _ Hb) as [_ Hcache].
      apply bind_cab_success in Hb as [Hc1 _].
      destruct (finalize_bound env cfg' log logopts nesting st1) as [r st'] eqn:Hfb.
      apply finalize_bound_outcome in Hfb as (H4 & _ & Hc & _). cbn [fst snd].
      rewrite H4, Hc, Hc1.
      destruct Hcache as [(cached & _ & ->)|(task & Hcab & Hnone & Hdef & ->)].
      * rewrite Hentry. split; [auto|congruence].
      * rewrite Hentry in *.
        change (heap (finalize_entry cfg' fq st)) with (heap st).
        assert (Hcab' : cab (self st) = Some task) by (rewrite <- Hcab; by destruct fq).
        split.
        -- intros k ref Hk. rewrite lookup_insert_ne; [exact Hk|congruence].
        -- intros k ref Hk Hknone.
           destruct (decide (task = k)) as [<-|Hne].
           ++ rewrite lookup_insert_eq in Hk. injection Hk as <-.
              split; [exact Hcab'|]. split; [reflexivity|exact Hdef].
           ++ rewrite lookup_insert_ne in Hk by done. congruence.
Qed.

(** X9: whatever its outcome, [finalize] removes no cargo object and
    writes none but the one that is, afterwards, the cargo of the step:
    every other object that existed before is as it was. *)
Theorem finalize_frame env cfg log logopts fq nesting st :
  length (heap st) <= length (heap (finalize env cfg log logopts fq nesting st).2)
  /\ forall i,
       i < length (heap st) ->
       cargo (self (finalize env cfg log logopts fq nesting st).2) <> Some i ->
       heap (finalize env cfg log logopts fq nesting st).2 !! i = heap st !! i.
Proof.
  rewrite finalize_parts.
  destruct (finalized (self st)) eqn:Hf; [cbn [fst snd]; auto|].
  unfold bind at 1 2 3. rewrite bind_cargo_entry.
  set (cfg' := effective_config env cfg).
  assert (Hentry : heap (finalize_entry cfg' fq st) = heap st) by reflexivity.
  destruct (recipe_truthy (self st)).
  - destruct (bind_recipe env cfg' _) as [[e|[]] st1] eqn:Hb.
    + apply bind_recipe_failure in Hb as (_ & H2 & _). cbn [fst snd]. rewrite H2, Hentry. auto.
    + apply bind_recipe_success in Hb as (_ & _ & _ & ref & c & Hc1 & _ & _ & Hheap).
      destruct (finalize_bound env cfg' log logopts nesting st1) as [r st'] eqn:Hfb.
      apply finalize_bound_outcome in Hfb as (_ & _ & Hc & Hlen & Hother & _). cbn [fst snd].
      rewrite Hentry in Hheap. rewrite Hlen, Hc.
      destruct Hheap as [Hheap|[Hheap ->]].
      * rewrite Hheap. split; [lia|]. intros i Hi Hne.
        rewrite Hother by congruence. by rewrite Hheap.
      * rewrite Hheap. split; [rewrite length_app; lia|]. intros i Hi Hne.
        rewrite Hother by congruence. rewrite Hheap. by apply lookup_app_l.
  - destruct (bind_cab env cfg' _) as [[e|[]] st1] eqn:Hb.
    + apply bind_cab_failure in Hb as [-> _]. cbn [fst snd]. rewrite Hentry. auto.
    + apply bind_cab_success in Hb as [Hc1 [c Hheap]].
      destruct (finalize_bound env cfg' log logopts nesting st1) as [r st'] eqn:Hfb.
      apply finalize_bound_outcome in Hfb as (_ & _ & Hc & Hlen & Hother & _). cbn [fst snd].
      rewrite Hentry in Hheap. rewrite Hlen, Hc, Hheap.
      split; [rewrite length_app; lia|]. intros i Hi Hne.
      rewrite Hother by congruence. rewrite Hheap. by apply lookup_app_l.
Qed.

Lemma finalize_cache_witness :
  _instantiated_cabs
    (finalize sample_env None None None None 0 (with_self second_copy finalized_first)).2
    !! "copy" = Some 0.
Proof.
  apply (proj1 (finalize_cache sample_env None None None None 0
                  (with_self second_copy finalized_first)) "copy" 0).
  vm_compute. reflexivity.
Defined.

Lemma finalize_frame_witness :
  heap (finalize sample_env None None None None 0
          (with_self second_copy finalized_first)).2 !! 0
  = heap (with_self second_copy finalized_first) !! 0.
Proof.
  apply (proj2 (finalize_frame sample_env None None None None 0
                  (with_self second_copy finalized_first)) 0).
  - vm_compute. lia.
  - vm_compute. discriminate.
Defined.

(** The object behind the cargo reference after the second part of
    [finalize], whatever its outcome: the bound object under the name
    of the step, finalized when the collaborators got that far. *)
Lemma finalize_bound_object env cfg log logopts nesting st ref c0 :
  cargo (self st) = Some ref ->
  heap st !! ref = Some c0 ->
  heap (finalize_bound env cfg log logopts nesting st).2 !! ref
  = Some (match flatten_param_dict env (set_cargo_name (name (self st)) c0)
                  (params (self st)) with
          | inl _ => set_cargo_name (name (self st)) c0
          | inr _ =>
              match cargo_finalize env (set_cargo_name (name (self st)) c0) cfg
                      (chosen_logger env log (self st)) logopts (fqname (self st))
                      nesting with
              | inl _ => set_cargo_name (name (self st)) c0
              | inr c1 => c1
              end
          end).
Proof.
  intros Hcargo Hheap.
  assert (Hlt : ref < length (heap st)) by (eapply lookup_lt_Some; eassumption).
  unfold finalize_bound. unfold bind at 1, get_self at 1.
  rewrite (bind_eq_success _ _ _ (ref, c0) st) by (by apply get_cargo_eq).
  cbn [fst snd]. unfold bind at 1, store at 1.
  destruct (flatten_param_dict env _ _) as [e|p]; cbn.
  - by apply list_lookup_insert_eq.
  - unfold chosen_logger.
    destruct (cargo_finalize env _ _ _ _ _ _) as [e|c1]; cbn.
    + by apply list_lookup_insert_eq.
    + apply list_lookup_insert_eq. by rewrite length_insert.
Qed.

(** X10: a cab that is in the cache is bound from the cache alone: the
    step gets a new object, which is the cached object under the name
    of the step, finalized unless a collaborator raised before; the
    cache and the cached object stay as they are, and no
    [StepValidationError] is raised, whether or not the configuration
    knows the cab. *)
Theorem finalize_cache_hit env cfg log logopts fq nesting st cached c :
  finalized (self st) = false ->
  recipe_truthy (self st) = false ->
  cached_cab st (self st) = Some cached ->
  heap st !! cached = Some c ->
  (forall msg nested,
      (finalize env cfg log logopts fq nesting st).1
      <> inl (StepValidationError msg nested))
  /\ cargo (self (finalize env cfg log logopts fq nesting st).2) = Some (length (heap st))
  /\ _instantiated_cabs (finalize env cfg log logopts fq nesting st).2
     = _instantiated_cabs st
  /\ heap (finalize env cfg log logopts fq nesting st).2 !! cached = Some c
  /\ heap (finalize env cfg log logopts fq nesting st).2 !! length (heap st)
     = Some (match flatten_param_dict env (set_cargo_name (name (self st)) c)
                     (params (self st)) with
             | inl _ => set_cargo_name (name (self st)) c
             | inr _ =>
                 match cargo_finalize env (set_cargo_name (name (self st)) c)
                         (effective_config env cfg)
                         (chosen_logger env log
                            (self (finalize_entry (effective_config env cfg) fq st)))
                         logopts
                         (fqname (self (finalize_entry (effective_config env cfg) fq st)))
                         nesting with
                 | inl _ => set_cargo_name (name (self st)) c
                 | inr copy => copy
                 end
             end).
Proof.
  intros Hf Hrec Hcached Hc.
  rewrite finalize_parts, Hf. unfold bind at 1 2 3 4 5. rewrite bind_cargo_entry, Hrec.
  set (cfg' := effective_config env cfg).
  assert (Hb : bind_cab env cfg' (finalize_entry cfg' fq st)
               = (inr tt,
                  {| self := set_cargo (Some (length (heap st)))
                               (self (finalize_entry cfg' fq st));
                     heap := heap st ++ [c];
                     _instantiated_cabs := _instantiated_cabs st;
                     trace := trace st |})).
  { unfold bind_cab. unfold bind at 1, get_self at 1. unfold bind at 1, get_state at 1.
    replace (cached_cab (finalize_entry cfg' fq st) (self (finalize_entry cfg' fq st)))
      with (Some cached) by (rewrite <- Hcached; by destruct fq).
    cbn [heap finalize_entry]. rewrite Hc. reflexivity. }
  rewrite Hb.
  pose proof (finalize_bound_object env cfg' log logopts nesting
                {| self := set_cargo (Some (length (heap st)))
                             (self (finalize_entry cfg' fq st));
                   heap := heap st ++ [c];
                   _instantiated_cabs := _instantiated_cabs st;
                   trace := trace st |} (length (heap st)) c eq_refl) as Hobj.
  cbn [heap self] in Hobj. specialize (Hobj (list_lookup_middle _ _ _ _ eq_refl)).
  replace (name (set_cargo (Some (length (heap st))) (self (finalize_entry cfg' fq st))))
    with (name (self st)) in Hobj by (by destruct fq).
  replace (params (set_cargo (Some (length (heap st))) (self (finalize_entry cfg' fq st))))
    with (params (self st)) in Hobj by (by destruct fq).
  destruct (finalize_bound env cfg' log logopts nesting _) as [r st'] eqn:Hfb.
  apply finalize_bound_outcome in Hfb as (H1 & _ & H3 & _ & H5 & H6).
  cbn [fst snd]. cbn [self heap _instantiated_cabs cargo set_cargo] in *.
  assert (Hlt : cached < length (heap st)) by (eapply lookup_lt_Some; eassumption).
  split; [intros msg nested ->; exact H6|].
  split; [exact H3|]. split; [exact H1|].
  split; [rewrite H5 by (intros [= Heq]; lia); by apply lookup_app_l_Some|].
  exact Hobj.
Qed.

Lemma finalize_cache_hit_witness :
  (forall msg nested,
      (finalize sample_env None None None None 0
         (with_self second_copy finalized_first)).1
      <> inl (StepValidationError msg nested))
  /\ cargo (self (finalize sample_env None None None None 0
                    (with_self second_copy finalized_first)).2)
     = Some (length (heap (with_self second_copy finalized_first)))
  /\ _instantiated_cabs (finalize sample_env None None None None 0
                           (with_self second_copy finalized_first)).2
     = _instantiated_cabs (with_self second_copy finalized_first)
  /\ heap (finalize sample_env None None None None 0
             (with_self second_copy finalized_first)).2 !! 0
     = Some (set_cargo_name "first" copy_cargo)
  /\ heap (finalize sample_env None None None None 0
             (with_self second_copy finalized_first)).2
       !! length (heap (with_self second_copy finalized_first))
     = Some (match flatten_param_dict sample_env
                     (set_cargo_name (name (self (with_self second_copy finalized_first)))
                        (set_cargo_name "first" copy_cargo))
                     (params (self (with_self second_copy finalized_first))) with
             | inl _ =>
                 set_cargo_name (name (self (with_self second_copy finalized_first)))
                   (set_cargo_name "first" copy_cargo)
             | inr _ =>
                 match cargo_finalize sample_env
                         (set_cargo_name
                            (name (self (with_self second_copy finalized_first)))
                            (set_cargo_name "first" copy_cargo))
                         (effective_config sample_env None)
                         (chosen_logger sample_env None
                            (self (finalize_entry (effective_config sample_env None) None
                                     (with_self second_copy finalized_first))))
                         None
                         (fqname
                            (self (finalize_entry (effective_config sample_env None) None
                                     (with_self second_copy finalized_first))))
                         0 with
                 | inl _ =>
                     set_cargo_name (name (self (with_self second_copy finalized_first)))
                       (set_cargo_name "first" copy_cargo)
                 | inr copy => copy
                 end
             end).
Proof.
  apply (finalize_cache_hit sample_env None None None None 0
           (with_self second_copy finalized_first) 0 (set_cargo_name "first" copy_cargo));
    vm_compute; reflexivity.
Defined.

(** On the sample the object the second step gets is the cached one
    under the name of the second step. *)
Example finalize_cache_hit_example :
  heap (finalize sample_env None None None None 0
          (with_self second_copy finalized_first)).2 !! 1
  = Some (set_cargo_name "second" (set_cargo_name "first" copy_cargo)).
Proof. vm_compute. reflexivity. Qed.

(** ** Recipes given as objects *)

Lemma bind_recipe_object env cfg st ref st1 :
  recipe (self st) = Some (RecipeObject ref) ->
  bind_recipe env cfg st = (inr tt, st1) ->
  cargo (self st1) = Some ref /\ heap st1 = heap st.
Proof.
  intros Hr H. unfold bind_recipe in H.
  outcome_cases H; try discriminate H; try congruence.
  all: injection H as <-; simpl; split; congruence.
Qed.

Lemma bind_recipe_name env cfg st st1 :
  bind_recipe env cfg st = (inr tt, st1) -> name (self st1) = name (self st).
Proof.
  intros H. unfold bind_recipe in H.
  outcome_cases H; try discriminate H; injection H as <-; reflexivity.
Qed.

(** X11: two steps given the same recipe object hold the same cargo:
    after both are finalized the two cargo references are equal, and
    the object the first step holds is the one the second step has
    named after itself and finalized again. *)
Theorem recipe_object_shared env cfg1 log1 logopts1 fq1 nesting1
        cfg2 log2 logopts2 fq2 nesting2 ref st st1 st' st2 :
  recipe (self st) = Some (RecipeObject ref) ->
  recipe (self st') = Some (RecipeObject ref) ->
  finalized (self st) = false -> finalized (self st') = false ->
  heap st' = heap st1 ->
  finalize env cfg1 log1 logopts1 fq1 nesting1 st = (inr tt, st1) ->
  finalize env cfg2 log2 logopts2 fq2 nesting2 st' = (inr tt, st2) ->
  cargo (self st1) = Some ref /\ cargo (self st2) = Some ref
  /\ exists c1 c2 logger fq,
       heap st1 !! ref = Some c1 /\ heap st2 !! ref = Some c2
       /\ cargo_finalize env (set_cargo_name (name (self st')) c1)
            (effective_config env cfg2) logger logopts2 fq nesting2
          = inr c2.
Proof.
  intros Hr1 Hr2 Hf1 Hf2 Hheap H1 H2.
  apply finalize_success in H1 as (sta & r1 & c0 & p1 & c1 & H1); [|exact Hf1].
  apply finalize_success in H2 as (stb & r2 & c0' & p2 & c2 & H2); [|exact Hf2].
  cbv zeta in H1, H2.
  destruct H1 as (Hb1 & Hc1 & Hh1 & _ & _ & Hs1 & Hheap1 & _).
  destruct H2 as (Hb2 & Hc2 & Hh2 & _ & Hfin2 & Hs2 & Hheap2 & _).
  assert (Ht1 : recipe_truthy (self (finalize_entry (effective_config env cfg1) fq1 st))
                = true) by (unfold recipe_truthy; destruct fq1; simpl; by rewrite Hr1).
  assert (Ht2 : recipe_truthy (self (finalize_entry (effective_config env cfg2) fq2 st'))
                = true) by (unfold recipe_truthy; destruct fq2; simpl; by rewrite Hr2).
  rewrite Ht1 in Hb1. rewrite Ht2 in Hb2.
  pose proof (bind_recipe_name _ _ _ _ Hb2) as Hname.
  apply bind_recipe_object with (ref := ref) in Hb1 as [Hca Hha];
    [|destruct fq1; exact Hr1].
  apply bind_recipe_object with (ref := ref) in Hb2 as [Hcb Hhb];
    [|destruct fq2; exact Hr2].
  rewrite Hc1 in Hca. injection Hca as ->. rewrite Hc2 in Hcb. injection Hcb as ->.
  assert (Hlt1 : ref < length (heap sta)) by (eapply lookup_lt_Some; eassumption).
  assert (Hlt2 : ref < length (heap stb)) by (eapply lookup_lt_Some; eassumption).
  split; [rewrite Hs1; exact Hc1|]. split; [rewrite Hs2; exact Hc2|].
  assert (Hsame : c0' = c1).
  { cbn [heap finalize_entry] in Hhb. rewrite Hhb, Hheap, Hheap1 in Hh2.
    rewrite list_lookup_insert_eq in Hh2 by (by rewrite length_insert). congruence. }
  subst c0'.
  assert (Hn : name (self stb) = name (self st'))
    by (rewrite Hname; by destruct fq2).
  rewrite Hn in Hfin2.
  exists c1, c2, (chosen_logger env log2 (self stb)), (fqname (self stb)).
  split; [rewrite Hheap1; apply list_lookup_insert_eq; by rewrite length_insert|].
  split; [rewrite Hheap2; apply list_lookup_insert_eq; by rewrite length_insert|].
  exact Hfin2.
Qed.

Lemma recipe_object_shared_witness :
  cargo (self nested_first) = Some 0 /\ cargo (self nested_second) = Some 0
  /\ exists c1 c2 logger fq,
       heap nested_first !! 0 = Some c1 /\ heap nested_second !! 0 = Some c2
       /\ cargo_finalize sample_env
            (set_cargo_name (name (self (with_self (built (nested_args "n2")) nested_first)))
               c1)
            (effective_config sample_env None) logger None fq 0
          = inr c2.
Proof.
  apply (recipe_object_shared sample_env None None None None 0 None None None None 0
           0 nested_start nested_first
           (with_self (built (nested_args "n2")) nested_first) nested_second);
    vm_compute; reflexivity.
Defined.

(** On the sample the shared object ends up under the name of the
    second step. *)
Example recipe_object_shared_example :
  cargo_name <$> heap nested_first !! 0 = Some "n1"
  /\ cargo_name <$> heap nested_second !! 0 = Some "n2"
  /\ length (heap nested_second) = 1.
Proof. repeat split; vm_compute; reflexivity. Qed.

(** ** Recipes given by name *)

Lemma descend_snoc section elements last_element :
  descend section (elements ++ [last_element])
  = match descend section elements with
    | Some (Dict entries) => entries !! last_element
    | _ => None
    end.
Proof.
  revert section. induction elements as [|element rest IH]; intros section; simpl.
  - destruct section as [| |entries]; try reflexivity.
    by destruct (entries !! last_element).
  - destruct section as [| |entries]; try reflexivity.
    destruct (entries !! element); [apply IH|reflexivity].
Qed.

(** The resolver without a current section. *)
Lemma resolve_from_base key base context section varname :
  resolve_dotted_reference key base None context = inr (section, varname)
  <-> hd "" (split_dots key) <> ""
      /\ Forall (fun element => element <> "") (removelast (split_dots key))
      /\ descend base (removelast (split_dots key)) = Some section
      /\ varname = List.last (split_dots key) "".
Proof.
  unfold resolve_dotted_reference, resolve_path.
  destruct (is_empty_string (hd "" (split_dots key))) eqn:Hseg; cbn [negb].
  - apply is_empty_string_true in Hseg. split; [discriminate|]. by intros [H _].
  - apply is_empty_string_false in Hseg.
    destruct (walk context key base (removelast (split_dots key))) as [e|n] eqn:Hw.
    + split; [discriminate|]. intros (_ & Hall & Hd & _).
      assert (walk context key base (removelast (split_dots key)) = inr section)
        by (apply walk_descend; auto).
      congruence.
    + apply walk_descend in Hw as [Hall Hd]. split.
      * intros [= <- <-]. auto.
      * intros (_ & _ & Hd' & ->). congruence.
Qed.

(** A key with a separator has at least two segments. *)
Lemma split_dots_dotted key :
  substring_of "." key = true ->
  exists seg seg2 segs, split_dots key = seg :: seg2 :: segs.
Proof.
  induction key as [|c rest IH]; [discriminate|].
  rewrite substring_of_dot_cons. simpl.
  destruct (Ascii.eqb c ".") eqn:Hc; simpl.
  - intros _. pose proof (split_dots_nonempty rest).
    destruct (split_dots rest) as [|seg2 segs]; [done|]. eauto.
  - intros H. destruct (IH H) as (seg & seg2 & segs & ->). eauto.
Qed.

(** X12: a recipe given by name resolves to the entry of [lib.recipes]
    when the name has no separator, and otherwise exactly to the node
    at that dotted path of the configuration, provided no segment
    before the last is empty. *)
Theorem lookup_recipe_descend cfg step_name rname n :
  lookup_recipe cfg step_name rname = inr n
  <-> (substring_of "." rname = false /\ lib_recipes cfg !! rname = Some n)
      \/ (substring_of "." rname = true
          /\ Forall (fun element => element <> "") (removelast (split_dots rname))
          /\ descend (tree cfg) (split_dots rname) = Some n).
Proof.
  unfold lookup_recipe.
  destruct (substring_of "." rname) eqn:Hdot; cbn [negb].
  - assert (Hpath : split_dots rname
                    = removelast (split_dots rname) ++ [List.last (split_dots rname) ""])
      by (apply app_removelast_last, split_dots_nonempty).
    assert (Hfull : descend (tree cfg) (split_dots rname)
                    = match descend (tree cfg) (removelast (split_dots rname)) with
                      | Some (Dict entries) =>
                          entries !! List.last (split_dots rname) ""
                      | _ => None
                      end)
      by (rewrite Hpath at 1; apply descend_snoc).
    rewrite Hfull. clear Hfull Hpath.
    assert (Hfirst : Forall (fun element => element <> "") (removelast (split_dots rname))
                     -> hd "" (split_dots rname) <> "").
    { destruct (split_dots_dotted _ Hdot) as (seg & seg2 & segs & ->).
      intros Hall. inversion Hall. assumption. }
    destruct (resolve_dotted_reference rname (tree cfg) None _)
      as [e|[section var]] eqn:Hres.
    + split; [discriminate|]. intros [[[=] _]|(_ & Hall & Hd)].
      destruct (descend (tree cfg) (removelast (split_dots rname)))
        as [[| |entries]|] eqn:Hdesc; try discriminate Hd.
      assert (Hok : resolve_dotted_reference rname (tree cfg) None
                      ("step '" +:+ step_name +:+ "'")
                    = inr (Dict entries, List.last (split_dots rname) ""))
        by (apply resolve_from_base; auto).
      congruence.
    + apply resolve_from_base in Hres as (_ & Hall & Hd & ->).
      rewrite Hd.
      destruct section as [s|z|entries]; simpl.
      * split; [destruct (substring_of _ s); discriminate|].
        intros [[[=] _]|(_ & _ & [=])].
      * split; [discriminate|]. intros [[[=] _]|(_ & _ & [=])].
      * destruct (entries !! List.last (split_dots rname) "") as [n'|] eqn:Hl.
        -- rewrite bool_decide_eq_true_2 by eauto.
           split; [intros [= ->]; right; auto|].
           intros [[[=] _]|(_ & _ & [= ->])]. reflexivity.
        -- rewrite bool_decide_eq_false_2 by (by intros [? ?]).
           split; [discriminate|]. intros [[[=] _]|(_ & _ & [=])].
  - destruct (lib_recipes cfg !! rname) as [n'|].
    + split; [intros [= ->]; left; auto|].
      intros [[_ [= ->]]|[[=] _]]. reflexivity.
    + split; [discriminate|]. intros [[_ [=]]|[[=] _]].
Qed.

(** ** The merge of the defaults *)

(** X13: the loop that sets the missing parameters computes the union
    of the parameters with the defaults in which the parameters win;
    run again with the same defaults it changes nothing. *)
Theorem merge_defaults_union (dflt p : gmap string value) :
  merge_defaults dflt p = p ∪ dflt
  /\ merge_defaults dflt (merge_defaults dflt p) = merge_defaults dflt p
  /\ dom (merge_defaults dflt p) = dom p ∪ dom dflt.
Proof.
  assert (H : forall d q : gmap string value, merge_defaults d q = q ∪ d).
  { intros d q. apply map_eq. intros nm.
    rewrite merge_defaults_lookup, lookup_union.
    destruct (q !! nm), (d !! nm); reflexivity. }
  split; [apply H|]. split.
  - rewrite !H. apply map_eq. intros nm. rewrite !lookup_union.
    destruct (p !! nm), (dflt !! nm); reflexivity.
  - rewrite H. apply dom_union_L.
Qed.

(** X14: a default built from the schema alone (not set by the cargo's
    own defaults) is the declared default of that name, and it is
    neither [None] nor an unresolved placeholder; so [finalize] never
    puts [None] or a placeholder from the schema into the parameters. *)
Theorem schema_defaults_resolved env cfg log logopts fq nesting st st' :
  finalized (self st) = false ->
  finalize env cfg log logopts fq nesting st = (inr tt, st') ->
  exists ref c,
    cargo (self st') = Some ref /\ heap st' !! ref = Some c
    /\ forall nm v,
         defaults (self st') !! nm = Some v ->
         cargo_defaults c !! nm = None ->
         is_none v = false /\ is_unresolved v = false
         /\ exists sch, inputs_outputs c !! nm = Some sch /\ default sch = v.
Proof.
  intros Hnot H.
  apply finalize_success in H as (st1 & ref & c0 & p & c1 & H); [|exact Hnot].
  cbv zeta in H. destruct H as (_ & Hcargo & Hheap & _ & _ & Hself & Hh & _).
  assert (Hlt : ref < length (heap st1)) by (eapply lookup_lt_Some; eassumption).
  exists ref, c1.
  split; [rewrite Hself; exact Hcargo|].
  split; [rewrite Hh; apply list_lookup_insert_eq; by rewrite length_insert|].
  intros nm v Hv Hown. rewrite Hself in Hv. cbn in Hv.
  rewrite build_defaults_lookup, Hown in Hv.
  destruct (inputs_outputs c1 !! nm) as [sch|]; [|discriminate].
  destruct (is_none (default sch)) eqn:Hn; [discriminate|].
  destruct (is_unresolved (default sch)) eqn:Hu; [discriminate|].
  injection Hv as <-. eauto.
Qed.

Lemma schema_defaults_resolved_witness :
  exists ref c,
    cargo (self finalized_bare) = Some ref /\ heap finalized_bare !! ref = Some c
    /\ forall nm v,
         defaults (self finalized_bare) !! nm = Some v ->
         cargo_defaults c !! nm = None ->
         is_none v = false /\ is_unresolved v = false
         /\ exists sch, inputs_outputs c !! nm = Some sch /\ default sch = v.
Proof.
  apply (schema_defaults_resolved sample_env None None None None 0
           (fresh_state (built bare_args)) finalized_bare);
    vm_compute; reflexivity.
Defined.

(** ** The classification of parameters *)

Lemma names_where_elem test (d : gmap string value) nm :
  nm ∈ names_where test d <-> exists v, d !! nm = Some v /\ test v = true.
Proof.
  unfold names_where. rewrite list_elem_of_fmap. split.
  - intros ([k v] & -> & Hin). apply list_elem_of_filter in Hin as [Ht Hin].
    apply elem_of_map_to_list in Hin. eauto.
  - intros (v & Hl & Ht). exists (nm, v). split; [reflexivity|].
    apply list_elem_of_filter. split; [exact Ht|by apply elem_of_map_to_list].
Qed.

Lemma names_where_NoDup test (d : gmap string value) : NoDup (names_where test d).
Proof.
  unfold names_where.
  apply (sublist_NoDup _ ((map_to_list d).*1)); [apply NoDup_fst_map_to_list|].
  apply fmap_sublist, sublist_filter.
Qed.

(** X15: once there are validated parameters, the three properties
    return and the lists they return are what their names say and do
    not overlap: a name is invalid exactly when its validated value is
    an error, unresolved exactly when it is an unresolved placeholder,
    missing exactly when the schema requires it and the validated
    parameters lack it; no list repeats a name, and no name is in two
    of them. *)
Theorem parameter_classification s c vp :
  validated_params s = Some vp ->
  exists invalid unresolved missing,
    invalid_params s = inr invalid
    /\ unresolved_params s = inr unresolved
    /\ missing_params s c = inr missing
    /\ (forall nm, nm ∈ invalid <-> exists msg, vp !! nm = Some (VError msg))
    /\ (forall nm, nm ∈ unresolved <-> exists what, vp !! nm = Some (VUnresolved what))
    /\ NoDup invalid /\ NoDup unresolved /\ NoDup (missing.*1)
    /\ (forall nm, nm ∈ invalid -> nm ∉ unresolved)
    /\ (forall nm sch,
           (nm, sch) ∈ missing
           <-> inputs_outputs c !! nm = Some sch /\ required sch = true
               /\ vp !! nm = None)
    /\ (forall nm, nm ∈ (missing.*1) -> (nm ∉ invalid) /\ (nm ∉ unresolved)).
Proof.
  intros Hvp. unfold invalid_params, unresolved_params, missing_params. rewrite Hvp.
  assert (Hinv : forall nm, nm ∈ names_where is_error vp
                            <-> exists msg, vp !! nm = Some (VError msg)).
  { intros nm. rewrite names_where_elem. split.
    - intros ([] & Hl & Ht); try discriminate Ht. eauto.
    - intros [msg Hl]. eauto. }
  assert (Hunr : forall nm, nm ∈ names_where is_unresolved vp
                            <-> exists what, vp !! nm = Some (VUnresolved what)).
  { intros nm. rewrite names_where_elem. split.
    - intros ([] & Hl & Ht); try discriminate Ht. eauto.
    - intros [what Hl]. eauto. }
  assert (Hmiss : forall nm sch,
            (nm, sch) ∈ filter (fun kv : string * Schema =>
                                  required kv.2 = true /\ vp !! kv.1 = None)
                               (map_to_list (inputs_outputs c))
            <-> inputs_outputs c !! nm = Some sch /\ required sch = true
                /\ vp !! nm = None).
  { intros nm sch. rewrite list_elem_of_filter, elem_of_map_to_list. simpl. tauto. }
  eexists _, _, _.
  split; [reflexivity|]. split; [reflexivity|]. split; [reflexivity|].
  split; [exact Hinv|]. split; [exact Hunr|].
  split; [apply names_where_NoDup|]. split; [apply names_where_NoDup|].
  split.
  { apply (sublist_NoDup _ ((map_to_list (inputs_outputs c)).*1));
      [apply NoDup_fst_map_to_list|].
    apply fmap_sublist, sublist_filter. }
  split.
  { intros nm [msg H1]%Hinv [what H2]%Hunr. congruence. }
  split; [exact Hmiss|].
  intros nm Hin. apply list_elem_of_fmap in Hin as ([k sch] & -> & Hin).
  apply Hmiss in Hin as (_ & _ & Hnone). simpl.
  split.
  - intros [msg H1]%Hinv. congruence.
  - intros [what H2]%Hunr. congruence.
Qed.

Lemma parameter_classification_witness :
  exists invalid unresolved missing,
    invalid_params classified_step = inr invalid
    /\ unresolved_params classified_step = inr unresolved
    /\ missing_params classified_step copy_cargo = inr missing
    /\ (forall nm, nm ∈ invalid <-> exists msg, rejected_params !! nm = Some (VError msg))
    /\ (forall nm, nm ∈ unresolved
                   <-> exists what, rejected_params !! nm = Some (VUnresolved what))
    /\ NoDup invalid /\ NoDup unresolved /\ NoDup (missing.*1)
    /\ (forall nm, nm ∈ invalid -> nm ∉ unresolved)
    /\ (forall nm sch,
           (nm, sch) ∈ missing
           <-> inputs_outputs copy_cargo !! nm = Some sch /\ required sch = true
               /\ rejected_params !! nm = None)
    /\ (forall nm, nm ∈ (missing.*1) -> (nm ∉ invalid) /\ (nm ∉ unresolved)).
Proof.
  apply (parameter_classification classified_step copy_cargo rejected_params).
  vm_compute. reflexivity.
Defined.

(** Before any validation the three properties fail on the sample
    step, whose schema has required parameters; after the run above
    nothing is missing, [src] is invalid and [dst] unresolved. *)
Example missing_params_example :
  missing_params plain_copy copy_cargo
  = inl (TypeError "argument of type 'NoneType' is not iterable")
  /\ invalid_params plain_copy
     = inl (AttributeError "'NoneType' object has no attribute 'items'")
  /\ missing_params classified_step copy_cargo = inr []
  /\ invalid_params classified_step = inr ["src"]
  /\ unresolved_params classified_step = inr ["dst"].
Proof. repeat split; vm_compute; reflexivity. Qed.

(** ** Validation exceptions are logged once *)

Lemma emit_all_result evs st :
  emit_all evs st
  = (inr tt, {| self := self st; heap := heap st;
                _instantiated_cabs := _instantiated_cabs st;
                trace := trace st ++ evs |}).
Proof.
  revert st. induction evs as [|ev evs IH]; intros st; simpl.
  - unfold ret. rewrite app_nil_r. by destruct st.
  - unfold bind, emit. rewrite IH. simpl. by rewrite <- app_assoc.
Qed.

(** The outcome of [log_validation_error], by cases on the flag and
    the class of the exception. *)
Lemma log_validation_error_result lvl what e st :
  exists st1,
    log_validation_error lvl what e st
    = (inr {| cls := cls e; message := message e; logged := true |}, st1)
    /\ self st1 = self st /\ heap st1 = heap st
    /\ _instantiated_cabs st1 = _instantiated_cabs st
    /\ trace st1
       = trace st ++
         (if logged e then []
          else match cls e with
               | SubstitutionErrorList errors =>
                   Log lvl "unresolved {}-substitution(s):"
                   :: map (fun err => Log lvl ("  " +:+ err)) errors
               | _ => [Log lvl ("error validating " +:+ what +:+ ": " +:+ message e)]
               end).
Proof.
  unfold log_validation_error.
  destruct (logged e) eqn:Hl.
  - exists st. unfold bind, ret. simpl. rewrite app_nil_r. auto.
  - destruct (cls e) as [errors| | |] eqn:Hc;
      unfold bind, emit, ret; rewrite ?emit_all_result; simpl;
      eexists; (split; [reflexivity|]); simpl;
      rewrite <- ?app_assoc; auto.
Qed.

(** X16: the records written for a caught validation exception: none
    when the exception is marked as logged, otherwise one record, or
    for a list of substitution errors a heading and one record per
    error, all at the given level.  The exception comes back marked,
    so that handling it again writes nothing, whatever the level. *)
Theorem log_validation_error_once lvl what e st :
  exists st1,
    log_validation_error lvl what e st
    = (inr {| cls := cls e; message := message e; logged := true |}, st1)
    /\ self st1 = self st /\ heap st1 = heap st
    /\ trace st1
       = trace st ++
         (if logged e then []
          else match cls e with
               | SubstitutionErrorList errors =>
                   Log lvl "unresolved {}-substitution(s):"
                   :: map (fun err => Log lvl ("  " +:+ err)) errors
               | _ => [Log lvl ("error validating " +:+ what +:+ ": " +:+ message e)]
               end)
    /\ forall lvl2 what2,
         log_validation_error lvl2 what2
           {| cls := cls e; message := message e; logged := true |} st1
         = (inr {| cls := cls e; message := message e; logged := true |}, st1).
Proof.
  destruct (log_validation_error_result lvl what e st) as (st1 & H & Hs & Hh & _ & Ht).
  exists st1. repeat (split; [assumption|]).
  intros lvl2 what2. unfold log_validation_error, bind, ret. reflexivity.
Qed.

(** ** Runner calls in a run *)

Lemma at_most_one_quiet {A} (m : M A) :
  preserves same_runner_calls m -> at_most_one_runner_call m.
Proof.
  intros H st. exists []. rewrite app_nil_r. split; [apply H|auto].
Qed.

Lemma at_most_one_bind_l {A B} (m : M A) (f : A -> M B) :
  preserves same_runner_calls m ->
  (forall a, at_most_one_runner_call (f a)) ->
  at_most_one_runner_call (bind m f).
Proof.
  intros Hm Hf st. unfold bind. specialize (Hm st). unfold same_runner_calls in Hm.
  destruct (m st) as [[e|a] st1]; simpl in *.
  - exists []. rewrite app_nil_r. auto.
  - destruct (Hf a st1) as (evs & H1 & H2). exists evs. rewrite H1, Hm. auto.
Qed.

Lemma at_most_one_bind_r {A B} (m : M A) (f : A -> M B) :
  at_most_one_runner_call m ->
  (forall a, preserves same_runner_calls (f a)) ->
  at_most_one_runner_call (bind m f).
Proof.
  intros Hm Hf st. unfold bind. destruct (Hm st) as (evs & H1 & H2).
  destruct (m st) as [[e|a] st1]; simpl in *.
  - exists evs. auto.
  - exists evs. specialize (Hf a st1). unfold same_runner_calls in Hf.
    rewrite Hf, H1. auto.
Qed.

Lemma dispatch_at_most_one env skip_now c params1 subst subst1 batch :
  at_most_one_runner_call (dispatch env skip_now c params1 subst subst1 batch).
Proof.
  intros st. unfold dispatch, bind, get_self.
  destruct (negb (truthy skip_now)).
  - destruct (ctype c).
    + exists [RunCab params1 (select_backend env (self st) c)].
      unfold emit. destruct (run_cab _ _ _ _ _ _ _); simpl;
        rewrite runner_calls_app; eauto 10.
    + exists [RunRecipe params1].
      unfold emit. destruct (recipe_run _ _ _); simpl;
        rewrite runner_calls_app; eauto 10.
    + exists []. simpl. rewrite app_nil_r. auto.
  - exists []. rewrite app_nil_r.
    destruct (_skip (self st)), subst; simpl; rewrite runner_calls_app; simpl;
      rewrite app_nil_r; auto.
Qed.

(** X17: whatever the collaborators do and however it ends, a run
    calls a runner at most once: the runner of the cab or the runner of
    the recipe, never both and never twice. *)
Theorem run_at_most_one_runner_call env subst batch parent_log st :
  exists evs,
    runner_calls (trace (run env subst batch parent_log st).2)
    = runner_calls (trace st) ++ evs
    /\ (evs = [] \/ (exists p b, evs = [RunCab p b]) \/ (exists p, evs = [RunRecipe p])).
Proof.
  revert st. change (at_most_one_runner_call (run env subst batch parent_log)).
  unfold run.
  apply at_most_one_bind_l; [apply ensure_prevalidated_quiet|intros _].
  apply at_most_one_bind_l; [apply evaluate_skip_quiet|intros skip_now].
  apply at_most_one_bind_l; [apply preserves_get_self; apply _|intros s].
  apply at_most_one_bind_l;
    [destruct (validated_params s);
     [apply preserves_ret|apply preserves_raise]; apply _|intros vp].
  apply at_most_one_bind_l; [apply preserves_get_cargo; apply _|intros rc].
  apply at_most_one_bind_l; [apply validate_step_inputs_quiet|intros [[p1 validated] s1]].
  apply at_most_one_bind_r; [apply dispatch_at_most_one|intros p2].
  apply validate_step_outputs_quiet.
Qed.

(** ** A run of a step that is being skipped *)

Lemma tolerant_ret {A} (a : A) : tolerant (ret a).
Proof. intros st H Hv. simpl. auto. Qed.

Lemma tolerant_raise {A} e : is_scabha e = false -> tolerant (raise (A := A) (Propagated e)).
Proof. intros He st H Hv. simpl. auto. Qed.

Lemma tolerant_bind {A B} (m : M A) (f : A -> M B) :
  tolerant m -> (forall a, tolerant (f a)) -> tolerant (bind m f).
Proof.
  intros Hm Hf st H Hv. unfold bind. destruct (Hm st H Hv) as (H1 & H2 & H3).
  destruct (m st) as [[e|a] st1]; simpl in *; [auto|]. by apply Hf.
Qed.

Lemma tolerant_get_self {B} (f : Step -> M B) :
  (forall s, skip_truthy s = true -> is_Some (validated_params s) -> tolerant (f s)) ->
  tolerant (bind get_self f).
Proof. intros Hf st H Hv. unfold bind, get_self. by apply Hf. Qed.

Lemma tolerant_emit ev : tolerant (emit ev).
Proof. intros st H Hv. simpl. auto. Qed.

Lemma tolerant_update_validated p : tolerant (update_validated p).
Proof.
  intros st H [vp Hvp]. unfold update_validated, bind, get_self. rewrite Hvp.
  simpl. eauto.
Qed.

Lemma tolerant_log_validation_error lvl what e :
  tolerant (log_validation_error lvl what e).
Proof.
  intros st H Hv.
  destruct (log_validation_error_result lvl what e st) as (st1 & -> & Hs & _).
  simpl. rewrite Hs. auto.
Qed.

Lemma tolerant_invalid_params {B} s (f : list string -> M B) :
  is_Some (validated_params s) ->
  (forall names, tolerant (f names)) ->
  tolerant (bind (lift_exn (invalid_params s)) f).
Proof.
  intros [vp Hvp] Hf. unfold invalid_params. rewrite Hvp.
  apply tolerant_bind; [apply tolerant_ret|exact Hf].
Qed.

Lemma tolerant_unresolved_params {B} s (f : list string -> M B) :
  is_Some (validated_params s) ->
  (forall names, tolerant (f names)) ->
  tolerant (bind (lift_exn (unresolved_params s)) f).
Proof.
  intros [vp Hvp] Hf. unfold unresolved_params. rewrite Hvp.
  apply tolerant_bind; [apply tolerant_ret|exact Hf].
Qed.

Ltac tolerant_step :=
  lazymatch goal with
  | |- tolerant (bind get_self _) => apply tolerant_get_self; intros ? ? ?
  | |- tolerant (bind (lift_exn (invalid_params _)) _) =>
      apply tolerant_invalid_params; [assumption|intros ?]
  | |- tolerant (bind (lift_exn (unresolved_params _)) _) =>
      apply tolerant_unresolved_params; [assumption|intros ?]
  | |- tolerant (bind _ _) => apply tolerant_bind; [|intros ?]
  | |- tolerant (ret _) => apply tolerant_ret
  | |- tolerant (emit _) => apply tolerant_emit
  | |- tolerant (update_validated _) => apply tolerant_update_validated
  | |- tolerant (log_validation_error _ _ _) => apply tolerant_log_validation_error
  | |- tolerant (raise (Propagated _)) => apply tolerant_raise; assumption
  | |- tolerant (let _ := _ in _) => cbv zeta
  | H : skip_truthy ?s = true |- tolerant (if skip_truthy ?s then _ else _) => rewrite H
  | H : truthy ?v = true |- tolerant (if truthy ?v then _ else _) => rewrite H
  | H : truthy ?v = true |- tolerant (if negb (truthy ?v) then _ else _) =>
      rewrite H; cbn [negb]
  | |- tolerant (if is_scabha ?e then _ else _) => destruct (is_scabha e) eqn:?
  | |- tolerant (match ?x with _ => _ end) => destruct x
  end.

Lemma validate_step_inputs_tolerant env skip_now subst c params0 :
  tolerant (validate_step_inputs env skip_now subst c params0).
Proof. unfold validate_step_inputs. repeat (tolerant_step; cbn beta iota). Qed.

Lemma dispatch_tolerant env skip_now c params1 subst subst1 batch :
  truthy skip_now = true ->
  tolerant (dispatch env skip_now c params1 subst subst1 batch).
Proof. intros Hskip. unfold dispatch. repeat (tolerant_step; cbn beta iota). Qed.

Lemma validate_step_outputs_tolerant env skip_now c params2 subst2 :
  truthy skip_now = true ->
  tolerant (validate_step_outputs env skip_now c params2 subst2).
Proof. intros Hskip. unfold validate_step_outputs. repeat (tolerant_step; cbn beta iota). Qed.

(** What a successful [prevalidate] leaves: the returned parameters as
    the validated ones, and a bound cargo. *)
Lemma prevalidate_success env subst root st p st' :
  prevalidate env subst root st = (inr p, st') ->
  validated_params (self st') = Some p
  /\ exists ref c, cargo (self st') = Some ref /\ heap st' !! ref = Some c.
Proof.
  unfold prevalidate. intros H.
  apply bind_success in H as ([] & st1 & Hfin & H).
  apply bind_success in H as (s & st2 & Hs & H).
  injection Hs as <- <-.
  apply bind_success in H as ([ref c] & st2 & Hc & H).
  apply get_cargo_success in Hc as (-> & Hcargo & Hheap).
  apply bind_success in H as (p' & st3 & Hp & H).
  apply lift_success in Hp as [Hp ->].
  unfold bind, modify_self, emit, get_self in H. cbn in H.
  destruct (nonempty _) in H; [discriminate H|].
  injection H as <- <-. cbn. eauto.
Qed.

Lemma ensure_prevalidated_success env st st0 :
  ensure_prevalidated env st = (inr tt, st0) ->
  exists vp, validated_params (self st0) = Some vp.
Proof.
  unfold ensure_prevalidated, bind at 1, get_self at 1.
  destruct (validated_params (self st)) as [vp|] eqn:E.
  - intros [= <-]. eauto.
  - intros H. apply bind_success in H as (p & st' & Hp & [= <-]).
    apply prevalidate_success in Hp as [Hp _]. eauto.
Qed.

(** X18: a run whose skip value is true, on a step whose [skip] is set,
    never fails on validation: it returns, or it passes on an
    exception that is not a [ScabhaBaseException] from the validation
    of the inputs or of the outputs.  No [StepValidationError] is
    raised, no validation exception is raised again, and no runner is
    called. *)
Theorem run_skipped_outcome env subst batch parent_log st st0 skip_now st1 ref c :
  ensure_prevalidated env st = (inr tt, st0) ->
  evaluate_skip env subst st0 = (inr skip_now, st1) ->
  truthy skip_now = true ->
  skip_truthy (self st0) = true ->
  cargo (self st0) = Some ref ->
  heap st0 !! ref = Some c ->
  match (run env subst batch parent_log st).1 with
  | inr _ => True
  | inl (Propagated e) => is_scabha e = false
  | inl _ => False
  end
  /\ runner_calls (trace (run env subst batch parent_log st).2) = runner_calls (trace st).
Proof.
  intros Hens Hev Hskip Hset Hcargo Hheap.
  split; [|by eapply run_skipped_no_dispatch].
  destruct (ensure_prevalidated_success _ _ _ Hens) as [vp Hvp].
  pose proof (evaluate_skip_state env subst st0) as (Hself & Hheap1 & _ & _).
  rewrite Hev in Hself, Hheap1. simpl in Hself, Hheap1.
  unfold run.
  rewrite (bind_eq_success _ _ _ _ _ Hens).
  rewrite (bind_eq_success _ _ _ _ _ Hev).
  unfold bind at 1, get_self at 1. rewrite Hself, Hvp.
  unfold bind at 1, ret at 1.
  rewrite (bind_eq_success _ _ _ (ref, c) st1)
    by (apply get_cargo_eq; [rewrite Hself|rewrite Hheap1]; assumption).
  cbn [fst snd].
  assert (Hrest : tolerant
            (bind (validate_step_inputs env skip_now subst c (params (self st0) ∪ vp))
               (fun r =>
                  let '(params1, validated, subst1) := r in
                  bind (dispatch env skip_now c params1 subst subst1 batch)
                    (fun params2 =>
                       validate_step_outputs env skip_now c params2
                         (if validated && negb (truthy skip_now)
                          then set_current params2 <$> subst1 else subst1))))).
  { apply tolerant_bind; [apply validate_step_inputs_tolerant|].
    intros [[p1 v] s1].
    apply tolerant_bind; [by apply dispatch_tolerant|intros p2].
    by apply validate_step_outputs_tolerant. }
  apply Hrest; rewrite Hself; [assumption|eauto].
Qed.

Lemma run_skipped_outcome_witness :
  match (run lenient_env None None None (fresh_state skipping_copy)).1 with
  | inr _ => True
  | inl (Propagated e) => is_scabha e = false
  | inl _ => False
  end
  /\ runner_calls (trace (run lenient_env None None None (fresh_state skipping_copy)).2)
     = runner_calls (trace (fresh_state skipping_copy)).
Proof.
  apply (run_skipped_outcome lenient_env None None None (fresh_state skipping_copy)
           prevalidated_skipping (VBool true) prevalidated_skipping 0
           (set_cargo_name "s1" copy_cargo));
    vm_compute; reflexivity.
Defined.

(** On the sample, input validation reports [src] invalid and [dst]
    unresolved; the skipped run returns the parameters as validation
    left them and writes warnings. *)
Example run_skipped_example :
  (run lenient_env None None None (fresh_state skipping_copy)).1
  = inr rejected_params
  /\ warnings (trace (run lenient_env None None None (fresh_state skipping_copy)).2) <> [].
Proof. split; [vm_compute; reflexivity|]. vm_compute. discriminate. Qed.

(** ** The state after a run *)

(** X19: a run that returns leaves the step finalized, its cargo an
    object of the heap, and its validated parameters set. *)
Theorem run_success_state env subst batch parent_log st p st' :
  run env subst batch parent_log st = (inr p, st') ->
  finalized (self st') = true
  /\ (exists ref c, cargo (self st') = Some ref /\ heap st' !! ref = Some c)
  /\ exists vp, validated_params (self st') = Some vp.
Proof.
  intros H. unfold run in H.
  apply bind_success in H as ([] & st0 & Hens & H).
  apply bind_success in H as (skip_now & st1 & Hev & H).
  apply bind_success in H as (s & st1' & [= <- <-] & H).
  destruct (ensure_prevalidated_success _ _ _ Hens) as [vp Hvp].
  pose proof (evaluate_skip_state env subst st0) as (Hself & Hheap1 & _ & _).
  rewrite Hev in Hself, Hheap1. simpl in Hself, Hheap1.
  rewrite Hself, Hvp in H. unfold bind at 1, ret at 1 in H.
  apply bind_success in H as ([ref c] & st2 & Hc & H).
  apply get_cargo_success in Hc as (-> & Hcargo & Hheap).
  set (R := fun a b : State =>
              cargo (self b) = cargo (self a) /\ heap b = heap a
              /\ (is_Some (validated_params (self a)) ->
                  is_Some (validated_params (self b)))).
  assert (HR : PreOrder R).
  { split; [intros a; unfold R; auto|].
    intros a b d (H1 & H2 & H3) (H4 & H5 & H6). unfold R.
    split; [congruence|]. split; [congruence|auto]. }
  cbn [fst snd] in *.
  set (rest := bind (validate_step_inputs _ _ _ _ _) _) in H.
  assert (Hrest : preserves R rest).
  { assert (Hemit : forall ev, preserves R (emit ev)) by (intros ev a; unfold R; simpl; auto).
    assert (Hval : forall f,
               (forall s0, is_Some (validated_params s0) -> is_Some (f s0)) ->
               preserves R (modify_self (fun s0 => set_validated_params (f s0) s0))).
    { intros f Hf a. unfold R. simpl. auto. }
    assert (Hupd : forall q, preserves R (update_validated q)).
    { intros q. unfold update_validated.
      apply preserves_bind; [exact HR|apply preserves_get_self; exact HR|].
      intros s0. destruct (validated_params s0); [|apply preserves_raise; exact HR].
      apply (Hval (fun _ => _)). eauto. }
    assert (Hlog : forall lvl what e, preserves R (log_validation_error lvl what e)).
    { intros lvl what e a.
      destruct (log_validation_error_result lvl what e a) as (a1 & -> & Hs & Hh & _).
      unfold R. simpl. rewrite Hs, Hh. auto. }
    subst rest. apply preserves_bind; [exact HR| |].
    - unfold validate_step_inputs.
      repeat first [ apply Hemit | apply Hupd | apply Hlog | preserves_step; cbn beta iota ].
    - intros [[p1 v] s1].
      apply preserves_bind; [exact HR| |].
      + unfold dispatch.
        repeat first [ apply Hemit | preserves_step; cbn beta iota ].
      + intros p2. unfold validate_step_outputs.
        repeat first [ apply Hemit | apply Hupd | apply Hlog | preserves_step; cbn beta iota ]. }
  specialize (Hrest st1). rewrite H in Hrest. cbn [snd] in Hrest.
  destruct Hrest as (Hc' & Hh' & Hv').
  rewrite Hself in Hv'.
  unfold finalized. rewrite Hc', Hcargo.
  split; [reflexivity|]. split.
  - exists ref, c. split; [reflexivity|]. rewrite Hh'. exact Hheap.
  - destruct Hv' as [x Hx]; eauto.
Qed.

Lemma run_success_state_witness :
  finalized (self (run sample_env None None None (fresh_state plain_copy)).2) = true
  /\ (exists ref c,
        cargo (self (run sample_env None None None (fresh_state plain_copy)).2) = Some ref
        /\ heap (run sample_env None None None (fresh_state plain_copy)).2 !! ref = Some c)
  /\ exists vp,
       validated_params (self (run sample_env None None None (fresh_state plain_copy)).2)
       = Some vp.
Proof.
  apply (run_success_state sample_env None None None (fresh_state plain_copy)
           {[ "src" := VStr "a"; "dst" := VStr "b"; "mode" := VInt 7;
              "verbose" := VBool false ]}).
  vm_compute. reflexivity.
Defined.
